(** * gcal: the event pipeline and the token store

    A shallow embedding of the Go package [gcal] (client.go, oauth.go,
    types.go): the conversion of provider events, the extraction of meeting
    URLs, the merge of several calendars, the conflict pass, and the
    persistence of OAuth tokens.

    Go strings are byte strings: they are modelled by [string], whose
    characters are the 256 [ascii] values.  A slice mutated in place is a
    [list] read with [!!] and written with [alter]; an index out of range is
    a run-time panic, modelled by [None] in the option monad. *)

From Stdlib Require Import ZArith Lia Bool List Ascii String Sorted OrderedTypeEx.
From stdpp Require Import base option list gmap strings.

Local Open Scope string_scope.
Local Open Scope Z_scope.

(** ** types.go *)

(** [type Event struct]: the event as it is printed.  [End] is a keyword of
    Rocq, so the field is [End_]. *)
Record Event := mkEvent {
  ID : string;
  Title : string;
  Start : string;
  End_ : string;
  Attendees : list string;
  AttendeeCount : Z;
  MeetingURL : string;
  HasConflict : bool;
  ResponseStatus : string
}.

Definition setHasConflict (b : bool) (e : Event) : Event :=
  mkEvent (ID e) (Title e) (Start e) (End_ e) (Attendees e) (AttendeeCount e)
          (MeetingURL e) b (ResponseStatus e).

Definition setResponseStatus (s : string) (e : Event) : Event :=
  mkEvent (ID e) (Title e) (Start e) (End_ e) (Attendees e) (AttendeeCount e)
          (MeetingURL e) (HasConflict e) s.

Definition setAttendees (l : list string) (e : Event) : Event :=
  mkEvent (ID e) (Title e) (Start e) (End_ e) l (AttendeeCount e)
          (MeetingURL e) (HasConflict e) (ResponseStatus e).

Definition setAttendeeCount (n : Z) (e : Event) : Event :=
  mkEvent (ID e) (Title e) (Start e) (End_ e) (Attendees e) n
          (MeetingURL e) (HasConflict e) (ResponseStatus e).

Definition setMeetingURL (u : string) (e : Event) : Event :=
  mkEvent (ID e) (Title e) (Start e) (End_ e) (Attendees e) (AttendeeCount e)
          u (HasConflict e) (ResponseStatus e).

(** ** Instants

    A [time.Time] is used by the conflict pass only through [After] and
    [Before], which compare instants: an instant is a number of nanoseconds
    since the Unix epoch. *)
Module time.

Definition Time := Z.

Definition After (t u : Time) : bool := u <? t.
Definition Before (t u : Time) : bool := t <? u.

(** *** A reader for the layout [RFC3339]

    [2006-01-02T15:04:05Z07:00], with an optional fraction of a second.
    It stands for [time.Parse(time.RFC3339, s)] in the examples; the
    theorems on the conflict pass hold for every reader. *)

Definition digit (c : ascii) : option Z :=
  let n := Z.of_N (N_of_ascii c) in
  if (48 <=? n) && (n <=? 57) then Some (n - 48) else None.

(** [digits n s]: the number written by the first [n] characters of [s],
    all of them digits, and the rest of [s]. *)
Fixpoint digits (n : nat) (acc : Z) (s : string) : option (Z * string) :=
  match n with
  | O => Some (acc, s)
  | S n' =>
      match s with
      | String c s' =>
          match digit c with
          | Some d => digits n' (10 * acc + d) s'
          | None => None
          end
      | EmptyString => None
      end
  end.

Definition expect (c : ascii) (s : string) : option string :=
  match s with
  | String c' s' => if Ascii.eqb c c' then Some s' else None
  | EmptyString => None
  end.

Definition isLeap (y : Z) : bool :=
  (y mod 4 =? 0) && (negb (y mod 100 =? 0) || (y mod 400 =? 0)).

Definition daysIn (m y : Z) : Z :=
  if m =? 2 then (if isLeap y then 29 else 28)
  else if (m =? 4) || (m =? 6) || (m =? 9) || (m =? 11) then 30
  else 31.

(** Days from 1970-01-01 to the civil date [y]-[m]-[d]. *)
Definition daysFromCivil (y m d : Z) : Z :=
  let y' := if m <=? 2 then y - 1 else y in
  let era := y' / 400 in
  let yoe := y' - era * 400 in
  let mp := if 2 <? m then m - 3 else m + 9 in
  let doy := (153 * mp + 2) / 5 + d - 1 in
  let doe := yoe * 365 + yoe / 4 - yoe / 100 + doy in
  era * 146097 + doe - 719468.

(** The fraction of a second: the digits after the point, read as
    nanoseconds ([scale] is the weight of the next digit). *)
Fixpoint fraction (scale acc : Z) (seen : bool) (s : string) : option (Z * string) :=
  match s with
  | String c s' =>
      match digit c with
      | Some d => fraction (scale / 10) (acc + d * scale) true s'
      | None => if seen then Some (acc, s) else None
      end
  | EmptyString => if seen then Some (acc, s) else None
  end.

Definition zone (s : string) : option Z :=
  match s with
  | String c s' =>
      if Ascii.eqb c "Z"%char then
        match s' with EmptyString => Some 0 | _ => None end
      else if Ascii.eqb c "+"%char || Ascii.eqb c "-"%char then
        '(hh, s1) ← digits 2 0 s';
        s2 ← expect ":"%char s1;
        '(mm, s3) ← digits 2 0 s2;
        match s3 with
        | EmptyString =>
            if (hh <=? 23) && (mm <=? 59) then
              let off := hh * 3600 + mm * 60 in
              Some (if Ascii.eqb c "-"%char then - off else off)
            else None
        | _ => None
        end
      else None
  | EmptyString => None
  end.

Definition ParseRFC3339 (s : string) : option Time :=
  '(y, s) ← digits 4 0 s;
  s ← expect "-"%char s;
  '(m, s) ← digits 2 0 s;
  s ← expect "-"%char s;
  '(d, s) ← digits 2 0 s;
  s ← expect "T"%char s;
  '(hh, s) ← digits 2 0 s;
  s ← expect ":"%char s;
  '(mi, s) ← digits 2 0 s;
  s ← expect ":"%char s;
  '(ss, s) ← digits 2 0 s;
  '(ns, s) ← match s with
             | String "."%char s' => fraction 100000000 0 false s'
             | _ => Some (0, s)
             end;
  off ← zone s;
  if (1 <=? m) && (m <=? 12) && (1 <=? d) && (d <=? daysIn m y)
     && (hh <=? 23) && (mi <=? 59) && (ss <=? 59)
  then Some ((daysFromCivil y m d * 86400 + hh * 3600 + mi * 60 + ss - off)
             * 1000000000 + ns)
  else None.

(** *** A writer for the layout [RFC3339Nano], in UTC *)

(** The civil date of the day [z] days after 1970-01-01. *)
Definition civilFromDays (z : Z) : Z * Z * Z :=
  let z := z + 719468 in
  let era := z / 146097 in
  let doe := z - era * 146097 in
  let yoe := (doe - doe / 1460 + doe / 36524 - doe / 146096) / 365 in
  let doy := doe - (365 * yoe + yoe / 4 - yoe / 100) in
  let mp := (5 * doy + 2) / 153 in
  let d := doy - (153 * mp + 2) / 5 + 1 in
  let m := if mp <? 10 then mp + 3 else mp - 9 in
  let y := yoe + era * 400 in
  (if m <=? 2 then y + 1 else y, m, d).

(** [n] written with [width] digits. *)
Fixpoint decimal (width : nat) (n : Z) : string :=
  match width with
  | O => ""
  | S width' =>
      decimal width' (n / 10)
      +:+ String (ascii_of_N (Z.to_N (48 + n mod 10))) ""
  end.

(** The fraction of a second, without the zeros at its end. *)
Fixpoint trimZeros (width : nat) (n : Z) : string :=
  match width with
  | O => ""
  | S width' => if n mod 10 =? 0 then trimZeros width' (n / 10) else decimal width n
  end.

Definition FormatRFC3339Nano (t : Time) : string :=
  let secs := t / 1000000000 in
  let ns := t mod 1000000000 in
  let '(y, m, d) := civilFromDays (secs / 86400) in
  let rem := secs mod 86400 in
  decimal 4 y +:+ "-" +:+ decimal 2 m +:+ "-" +:+ decimal 2 d +:+ "T"
  +:+ decimal 2 (rem / 3600) +:+ ":" +:+ decimal 2 (rem mod 3600 / 60) +:+ ":"
  +:+ decimal 2 (rem mod 60)
  +:+ (if ns =? 0 then "" else "." +:+ trimZeros 9 ns) +:+ "Z".

(** The year of an instant, in UTC. *)
Definition Year (t : Time) : Z := (civilFromDays (t / 1000000000 / 86400)).1.1.

(** The character of the last digit of [d]. *)
Definition dchar (d : Z) : ascii := ascii_of_N (Z.to_N (48 + d mod 10)).

(** [f] holds of the [n] integers from [z] on. *)
Fixpoint allFrom (n : nat) (z : Z) (f : Z → bool) : bool :=
  match n with
  | O => true
  | S n' => f z && allFrom n' (z + 1) f
  end.

(** The day [doe] of the 400 years from 0000-03-01 has a date of the
    calendar, and that date is the one of that day. *)
Definition checkDay (doe : Z) : bool :=
  let '(y, m, d) := civilFromDays (doe - 719468) in
  (1 <=? m) && (m <=? 12) && (1 <=? d) && (d <=? daysIn m y)
  && (daysFromCivil y m d =? doe - 719468).

End time.

(** ** client.go: the conflict pass *)

Section Conflicts.

(** [time.Parse(time.RFC3339, s)]: the instant, or [None] for an error. *)
Variable parseTime : string → option time.Time.

(** [events[k].HasConflict = true] *)
Definition markConflict (k : nat) (events : list Event) : option (list Event) :=
  _ ← events !! k;
  Some (alter (setHasConflict true) k events).

(** The body of the inner loop of [detectConflicts], for the indices [i]
    and [j]. *)
Definition checkPair (i j : nat) (events : list Event) : option (list Event) :=
  ei ← events !! i;
  ej ← events !! j;
  match parseTime (Start ei), parseTime (End_ ei),
        parseTime (Start ej), parseTime (End_ ej) with
  | Some startI, Some endI, Some startJ, Some endJ =>
      if time.After endI startJ && time.Before startI endJ then
        events ← markConflict i events;
        markConflict j events
      else Some events
  | _, _, _, _ => Some events
  end.

(** A [for] loop over the indices [js], threading the slice. *)
Fixpoint forRange (js : list nat) (body : nat → list Event → option (list Event))
    (events : list Event) : option (list Event) :=
  match js with
  | [] => Some events
  | j :: js' => events' ← body j events; forRange js' body events'
  end.

(** [for j := i + 1; j < len(events); j++ { ... }] *)
Definition innerLoop (i : nat) (events : list Event) : option (list Event) :=
  forRange (seq (S i) (length events - S i)) (checkPair i) events.

(** [func detectConflicts(events []Event)]: the slice after the call, or
    [None] if the call panics. *)
Definition detectConflicts (events : list Event) : option (list Event) :=
  forRange (seq 0 (length events)) innerLoop events.

(** The test of the pass on two events, as a function of the events. *)
Definition conflict (a b : Event) : bool :=
  match parseTime (Start a), parseTime (End_ a),
        parseTime (Start b), parseTime (End_ b) with
  | Some startA, Some endA, Some startB, Some endB =>
      time.After endA startB && time.Before startA endB
  | _, _, _, _ => false
  end.

(** [es'] is [es] with some more flags set, and nothing else changed. *)
Definition flagsRaised (es es' : list Event) : Prop :=
  length es' = length es ∧
  ∀ k e, es !! k = Some e →
    ∃ e', es' !! k = Some e' ∧ e' = setHasConflict (HasConflict e') e ∧
          (HasConflict e = true → HasConflict e' = true).

(** The event at [k] overlaps another event of [es]. *)
Definition overlapsAnother (es : list Event) (k : nat) : Prop :=
  ∃ j ek ej, j ≠ k ∧ es !! k = Some ek ∧ es !! j = Some ej ∧ conflict ek ej = true.

(** Every flag of [es'] was set in [es] or stands for an overlap in
    [es]. *)
Definition flagsJustified (es es' : list Event) : Prop :=
  ∀ k e', es' !! k = Some e' → HasConflict e' = true →
    (∃ e, es !! k = Some e ∧ HasConflict e = true) ∨ overlapsAnother es k.

End Conflicts.

(** ** The provider's event: [calendar.Event] of google.golang.org/api/calendar/v3

    Only the fields that client.go reads.  [Start] and [End_] are pointers
    in Go that client.go dereferences without a test; the provider sets both
    on every event it lists, and they are records here.  [ConferenceData] is
    a pointer that client.go tests against [nil]: an option, under the name
    [conferenceData] since the record type has the name of the Go type. *)
Module calendar.

Record EventDateTime := mkEventDateTime {
  Date : string;
  DateTime : string
}.

Record EventAttendee := mkEventAttendee {
  Email : string;
  DisplayName : string;
  Self : bool;
  ResponseStatus : string
}.

Record EntryPoint := mkEntryPoint {
  EntryPointType : string;
  Uri : string
}.

Record ConferenceData := mkConferenceData {
  EntryPoints : list EntryPoint
}.

Record Event := mkEvent {
  Id : string;
  Status : string;
  Summary : string;
  Description : string;
  Location : string;
  HangoutLink : string;
  Start : EventDateTime;
  End_ : EventDateTime;
  Attendees : list EventAttendee;
  conferenceData : option ConferenceData
}.

End calendar.

(** ** Regular expressions of the shape client.go uses

    A pattern is a sequence of literal strings and of greedy repetitions of
    a class of bytes.  [FindString] returns the leftmost match, and at that
    place the one a backtracking search that prefers more repetitions finds
    first, as package regexp of Go does; no match is the empty string.  A
    class that excludes only ASCII bytes accepts every byte of a character
    encoded on several bytes, so matching bytes agrees with matching
    characters. *)
Module regexp.

Inductive atom :=
| Lit (s : string)
| Star (cls : ascii → bool)
| Plus (cls : ascii → bool).

Definition Regexp := list atom.

(** The length of the longest prefix of [s] made of bytes of [cls]. *)
Fixpoint span (cls : ascii → bool) (s : string) : nat :=
  match s with
  | String c s' => if cls c then S (span cls s') else O
  | EmptyString => O
  end.

Fixpoint drop (n : nat) (s : string) : string :=
  match n, s with
  | S n', String _ s' => drop n' s'
  | _, _ => s
  end.

(** [descend lo k f]: the first success of [f] at [lo + k], [lo + k - 1],
    ..., [lo]. *)
Fixpoint descend (lo k : nat) (f : nat → option nat) : option nat :=
  match f (lo + k)%nat with
  | Some n => Some n
  | None => match k with O => None | S k' => descend lo k' f end
  end.

(** The length of the match of [re] at the start of [s]. *)
Fixpoint matchHere (re : Regexp) (s : string) : option nat :=
  match re with
  | [] => Some O
  | Lit l :: re' =>
      if String.prefix l s then
        n ← matchHere re' (drop (String.length l) s);
        Some (String.length l + n)%nat
      else None
  | Star cls :: re' =>
      descend 0 (span cls s)
        (λ k, n ← matchHere re' (drop k s); Some (k + n)%nat)
  | Plus cls :: re' =>
      match span cls s with
      | O => None
      | S m =>
          descend 1 m (λ k, n ← matchHere re' (drop k s); Some (k + n)%nat)
      end
  end.

Fixpoint FindString (re : Regexp) (s : string) : string :=
  match matchHere re s with
  | Some n => String.substring 0 n s
  | None =>
      match s with
      | String _ s' => FindString re s'
      | EmptyString => ""
      end
  end.

End regexp.

(** ** Package strings *)
Module strings.

Definition byte (n : nat) : ascii := ascii_of_nat n.

Definition bytes (l : list nat) : string :=
  string_of_list_ascii (map byte l).

(** The white space of [unicode.IsSpace], in UTF-8: tab, line feed,
    vertical tab, form feed, carriage return, space, U+0085, U+00A0,
    U+1680, U+2000 to U+200A, U+2028, U+2029, U+202F, U+205F, U+3000. *)
Definition spaces : list string :=
  map bytes
    [[9]; [10]; [11]; [12]; [13]; [32]; [194; 133]; [194; 160];
     [225; 154; 128];
     [226; 128; 128]; [226; 128; 129]; [226; 128; 130]; [226; 128; 131];
     [226; 128; 132]; [226; 128; 133]; [226; 128; 134]; [226; 128; 135];
     [226; 128; 136]; [226; 128; 137]; [226; 128; 138];
     [226; 128; 168]; [226; 128; 169]; [226; 128; 175];
     [226; 129; 159]; [227; 128; 128]]%nat.

Definition rev (s : string) : string :=
  string_of_list_ascii (List.rev (list_ascii_of_string s)).

(** [s] without the elements of [table] it starts with, one after the
    other ([fuel] bounds their number). *)
Fixpoint trimPrefix (table : list string) (fuel : nat) (s : string) : string :=
  match fuel with
  | O => s
  | S fuel' =>
      match List.find (λ sp, String.prefix sp s) table with
      | Some sp => trimPrefix table fuel' (regexp.drop (String.length sp) s)
      | None => s
      end
  end.

(** [strings.TrimSpace]: [s] without its leading and trailing white
    space; the trailing one is the leading one of the reversed string. *)
Definition TrimSpace (s : string) : string :=
  let s := trimPrefix spaces (String.length s) s in
  rev (trimPrefix (map rev spaces) (String.length s) (rev s)).

(** [strings.Join] *)
Definition Join (elems : list string) (sep : string) : string :=
  String.concat sep elems.

End strings.

(** ** Package sort

    [sort.SliceStable] sorts blocks by insertion and merges them in place.
    For a [less] that compares a key, as here, its result is the only
    rearrangement of the slice that is ordered and keeps elements of equal
    key in their order (lemma [stable_sort_unique] below), and it is given
    by insertion. *)
Module sort.

Section Stable.
Context {A : Type} (less : A → A → bool).

Fixpoint insert (x : A) (l : list A) : list A :=
  match l with
  | [] => [x]
  | y :: l' => if less y x then y :: insert x l' else x :: l
  end.

Definition SliceStable (l : list A) : list A := foldr insert [] l.
End Stable.

End sort.

(** ** types.go: responses *)

Definition ErrNotConfigured : string := "not_configured".
Definition ErrTokenExpired : string := "token_expired".
Definition ErrNetworkError : string := "network_error".
Definition ErrAPIError : string := "api_error".

Record Response := mkResponse {
  Success : bool;
  LastSync : string;
  Events : list Event;
  Error : string;
  Message : string
}.

Definition NewErrorResponse (code message : string) : Response :=
  mkResponse false "" [] code message.

(** [now] is [time.Now().Format(time.RFC3339)]. *)
Definition NewSuccessResponse (now : string) (events : list Event) : Response :=
  mkResponse true now events "" "".

(** ** client.go: conversion *)

Definition eventStatusCancelled : string := "cancelled".
Definition responseStatusAccepted : string := "accepted".

Definition meetingPatterns : list regexp.Regexp :=
  let lower c := (Ascii.leb "a" c && Ascii.leb c "z")%char in
  let num c := (Ascii.leb "0" c && Ascii.leb c "9")%char in
  let host c := lower c || num c || Ascii.eqb c "."%char || Ascii.eqb c "-"%char in
  let code c := lower c || num c || Ascii.eqb c "-"%char in
  let url c :=
    negb (existsb (Ascii.eqb c)
            (map strings.byte [9; 10; 12; 13; 32; 60; 62; 34]%nat)) in
  [ [regexp.Lit "https://"; regexp.Star host; regexp.Lit "zoom.us/"; regexp.Plus url];
    [regexp.Lit "https://meet.google.com/"; regexp.Plus code];
    [regexp.Lit "https://teams.microsoft.com/"; regexp.Plus url];
    [regexp.Lit "https://"; regexp.Star host; regexp.Lit "webex.com/"; regexp.Plus url] ].

(** [func extractMeetingURL(item *calendar.Event) string] *)
Definition extractMeetingURL (item : calendar.Event) : string :=
  if negb (calendar.HangoutLink item =? "")%string then calendar.HangoutLink item
  else
    let fromConference :=
      cd ← calendar.conferenceData item;
      List.find (λ ep, (calendar.EntryPointType ep =? "video")%string
                       && negb (calendar.Uri ep =? "")%string)
                (calendar.EntryPoints cd) in
    match fromConference with
    | Some ep => calendar.Uri ep
    | None =>
        let searchIn := calendar.Description item +:+ " " +:+ calendar.Location item in
        match List.find (λ pattern, negb (regexp.FindString pattern searchIn =? "")%string)
                        meetingPatterns with
        | Some pattern => strings.TrimSpace (regexp.FindString pattern searchIn)
        | None => ""
        end
    end.

(** [event.Attendees[len(event.Attendees)-1] = s] *)
Definition setLast (s : string) (l : list string) : list string :=
  <[(length l - 1)%nat := s]> l.

(** The body of the loop of [convertEvent] over the attendees. *)
Definition scanAttendee (event : Event) (attendee : calendar.EventAttendee) : Event :=
  if calendar.Self attendee then
    setResponseStatus (calendar.ResponseStatus attendee) event
  else if negb (calendar.Email attendee =? "")%string then
    let event := setAttendees (Attendees event ++ [calendar.DisplayName attendee])%list event in
    if (List.last (Attendees event) "" =? "")%string then
      setAttendees (setLast (calendar.Email attendee) (Attendees event)) event
    else event
  else event.

(** [func convertEvent(item *calendar.Event) *Event]; [None] is [nil]. *)
Definition convertEvent (item : calendar.Event) : option Event :=
  if (calendar.Status item =? eventStatusCancelled)%string then None
  else if (calendar.DateTime (calendar.Start item) =? "")%string then None
  else
    let event :=
      mkEvent (calendar.Id item) (calendar.Summary item)
              (calendar.DateTime (calendar.Start item))
              (calendar.DateTime (calendar.End_ item))
              [] 0 "" false "" in
    let event := fold_left scanAttendee (calendar.Attendees item) event in
    let event := setAttendeeCount (Z.of_nat (length (Attendees event))) event in
    if AttendeeCount event =? 0 then None
    else if negb (ResponseStatus event =? responseStatusAccepted)%string then None
    else Some (setMeetingURL (extractMeetingURL item) event).

(** *** What the conversion is expected to compute

    The attendees that are listed: not the caller's own entry, and with an
    address.  The name of a listed attendee: the display name, or the
    address when there is none.  The caller's own answer: the one of the
    last entry flagged [Self], empty when there is none. *)
Definition listed (a : calendar.EventAttendee) : bool :=
  negb (calendar.Self a) && negb (calendar.Email a =? "")%string.

Definition attendeeName (a : calendar.EventAttendee) : string :=
  if (calendar.DisplayName a =? "")%string then calendar.Email a
  else calendar.DisplayName a.

Definition listedNames (item : calendar.Event) : list string :=
  map attendeeName (List.filter listed (calendar.Attendees item)).

Definition lastSelf (attendees : list calendar.EventAttendee) : option calendar.EventAttendee :=
  List.find calendar.Self (List.rev attendees).

Definition selfResponseStatus (item : calendar.Event) : string :=
  match lastSelf (calendar.Attendees item) with
  | Some a => calendar.ResponseStatus a
  | None => ""
  end.

(** The entry points of the conference data, none when there is no
    conference data, and the text in which the patterns are looked for. *)
Definition entryPoints (item : calendar.Event) : list calendar.EntryPoint :=
  match calendar.conferenceData item with
  | Some cd => calendar.EntryPoints cd
  | None => []
  end.

Definition searchIn (item : calendar.Event) : string :=
  calendar.Description item +:+ " " +:+ calendar.Location item.

(** ** client.go: fetching *)

(** A Go result [(value, err)]: the value when [err] is [nil], or the text
    of the error. *)
Inductive result (A : Type) :=
| Ok (a : A)
| Err (err : string).
Arguments Ok {A} a.
Arguments Err {A} err.

(** The time window of a query: the local day, or the next [hours] hours. *)
Inductive Window :=
| Today
| Upcoming (hours : Z).

Section Fetch.

Variable parseTime : string → option time.Time.

(** [srv.Events.List(calID).TimeMin(..).TimeMax(..).SingleEvents(true)
    .OrderBy("startTime").Do()]: the items of the calendar in the window,
    or the error of the query. *)
Variable EventsList : Window → string → result (list calendar.Event).

(** The loop over [events.Items]. *)
Definition appendConverted (allEvents : list Event) (item : calendar.Event) : list Event :=
  match convertEvent item with
  | Some event => (allEvents ++ [event])%list
  | None => allEvents
  end.

(** The body of the loop over [calendarIDs], on [allEvents] and
    [errors]. *)
Definition fetchCalendar (window : Window) (st : list Event * list string)
    (calID : string) : list Event * list string :=
  match EventsList window calID with
  | Err err => (st.1, (st.2 ++ ["calendar " +:+ calID +:+ ": " +:+ err])%list)
  | Ok items => (fold_left appendConverted items st.1, st.2)
  end.

(** [func FetchTodayEvents(ctx, calendarIDs) Response]; [client] is the
    result of [GetClient(ctx)], [service] the one of [calendar.NewService]
    and [now] the text of [time.Now()] in the layout RFC3339; [None] is a
    panic. *)
Definition FetchTodayEvents (client service : result unit) (now : string)
    (calendarIDs : list string) : option Response :=
  match client with
  | Err err => Some (NewErrorResponse ErrNotConfigured err)
  | Ok _ =>
      match service with
      | Err err =>
          Some (NewErrorResponse ErrAPIError
                  ("failed to create calendar service: " +:+ err))
      | Ok _ =>
          let calendarIDs :=
            if (length calendarIDs =? 0)%nat then ["primary"] else calendarIDs in
          let st := fold_left (fetchCalendar Today) calendarIDs ([], []) in
          let allEvents := st.1 in
          let errors := st.2 in
          if (0 <? length errors)%nat && (length allEvents =? 0)%nat then
            Some (NewErrorResponse ErrAPIError
                    ("failed to fetch events: " +:+ strings.Join errors "; "))
          else
            let allEvents :=
              sort.SliceStable (λ a b, (Start a <? Start b)%string) allEvents in
            allEvents ← detectConflicts parseTime allEvents;
            Some (NewSuccessResponse now allEvents)
      end
  end.

(** [func FetchUpcomingEvents(ctx, calendarIDs, hours) Response] *)
Definition FetchUpcomingEvents (client service : result unit) (now : string)
    (calendarIDs : list string) (hours : Z) : option Response :=
  match client with
  | Err err => Some (NewErrorResponse ErrNotConfigured err)
  | Ok _ =>
      match service with
      | Err err =>
          Some (NewErrorResponse ErrAPIError
                  ("failed to create calendar service: " +:+ err))
      | Ok _ =>
          let calendarIDs :=
            if (length calendarIDs =? 0)%nat then ["primary"] else calendarIDs in
          let st := fold_left (fetchCalendar (Upcoming hours)) calendarIDs ([], []) in
          let allEvents := st.1 in
          let errors := st.2 in
          if (0 <? length errors)%nat && (length allEvents =? 0)%nat then
            Some (NewErrorResponse ErrAPIError
                    ("failed to fetch events: " +:+ strings.Join errors "; "))
          else
            let allEvents :=
              sort.SliceStable (λ a b, (Start a <? Start b)%string) allEvents in
            allEvents ← detectConflicts parseTime allEvents;
            Some (NewSuccessResponse now allEvents)
      end
  end.

(** *** What the loop over the calendars is expected to gather

    The calendars that are asked, the messages of the queries that fail, in
    the order of the calendars, and the converted events of the queries
    that succeed, in the order of the calendars and, for one calendar, in
    the order of the provider. *)
Definition askedCalendars (calendarIDs : list string) : list string :=
  match calendarIDs with [] => ["primary"] | _ => calendarIDs end.

Definition failures (window : Window) (calendarIDs : list string) : list string :=
  flat_map
    (λ calID, match EventsList window calID with
              | Err err => ["calendar " +:+ calID +:+ ": " +:+ err]
              | Ok _ => []
              end)
    calendarIDs.

Definition collected (window : Window) (calendarIDs : list string) : list Event :=
  flat_map
    (λ calID, match EventsList window calID with
              | Err _ => []
              | Ok items => omap convertEvent items
              end)
    calendarIDs.

End Fetch.

(** The order of a key that is a text, and the order of the merge: by the
    text of the start. *)
Definition keyLess {A : Type} (key : A → string) (a b : A) : bool :=
  (key a <? key b)%string.

Definition keyLe {A : Type} (key : A → string) (a b : A) : Prop :=
  keyLess key b a = false.

Definition startLess (a b : Event) : bool := (Start a <? Start b)%string.

(** [a] is not after [b] in that order. *)
Definition startLe (a b : Event) : Prop := startLess b a = false.

(** ** oauth.go: credentials and tokens *)

Module oauth2.

(** [oauth2.Token]; the expiry is an instant. *)
Record Token := mkToken {
  AccessToken : string;
  RefreshToken : string;
  TokenType : string;
  Expiry : time.Time
}.

End oauth2.

(** [type TokenStore struct] of types.go *)
Record TokenStore := mkTokenStore {
  AccessToken : string;
  RefreshToken : string;
  TokenType : string;
  Expiry : time.Time
}.

(** [type Credentials struct] of types.go *)
Record Credentials := mkCredentials {
  ClientID : string;
  ClientSecret : string
}.

Definition credentialsFile : string := "gcal-credentials.json".
Definition tokenFile : string := "gcal-tokens.json".
Definition DefaultCallbackPort : Z := 8085.

(** An error of package os: its text, and whether [os.IsNotExist] holds
    for it. *)
Record PathError := mkPathError {
  notExist : bool;
  text : string
}.

(** What oauth.go asks of the machine it runs on, over the states [World]
    of that machine: the environment and the files of package os, the
    paths of package filepath, package encoding/json at the two record
    types, and the token source of package oauth2, which may go to the
    network to refresh a token.  An operation that writes returns the new
    state, with the error if it fails. *)
Record Host (World : Type) := mkHost {
  Getenv : string → World → string;
  UserHomeDir : World → result string;
  MkdirAll : string → Z → World → World * option string;
  ReadFile : string → World → PathError + string;
  WriteFile : string → string → Z → World → World * option string;
  Join : list string → string;
  UnmarshalCredentials : string → result Credentials;
  UnmarshalTokenStore : string → result TokenStore;
  MarshalIndentTokenStore : TokenStore → result string;
  TokenSource : Credentials → oauth2.Token → World → World * result oauth2.Token
}.
Arguments Getenv {World} _ _ _.
Arguments UserHomeDir {World} _ _.
Arguments MkdirAll {World} _ _ _ _.
Arguments ReadFile {World} _ _ _.
Arguments WriteFile {World} _ _ _ _ _.
Arguments Join {World} _ _.
Arguments UnmarshalCredentials {World} _ _.
Arguments UnmarshalTokenStore {World} _ _.
Arguments MarshalIndentTokenStore {World} _ _.
Arguments TokenSource {World} _ _ _ _.

Section OAuth.

Context {World : Type} (host : Host World).

(** [func getConfigDir() (string, error)] *)
Definition getConfigDir (w : World) : result string :=
  let configHome := Getenv host "XDG_CONFIG_HOME" w in
  if (configHome =? "")%string then
    match UserHomeDir host w with
    | Err err => Err err
    | Ok home => Ok (Join host [Join host [home; ".config"]; "gcal"])
    end
  else Ok (Join host [configHome; "gcal"]).

(** [func getDataDir() (string, error)]; it creates the directory. *)
Definition getDataDir (w : World) : World * result string :=
  let dataHome := Getenv host "XDG_DATA_HOME" w in
  let dataHome' :=
    if (dataHome =? "")%string then
      match UserHomeDir host w with
      | Err err => Err err
      | Ok home => Ok (Join host [home; ".local"; "share"])
      end
    else Ok dataHome in
  match dataHome' with
  | Err err => (w, Err err)
  | Ok dataHome =>
      let dir := Join host [dataHome; "gcal"] in
      match MkdirAll host dir 493 w with
      | (w, Some err) => (w, Err err)
      | (w, None) => (w, Ok dir)
      end
  end.

(** [func LoadCredentials()], with its two results: the credentials and
    the error. *)
Definition LoadCredentials (w : World) : result (option Credentials) :=
  match getConfigDir w with
  | Err err => Err ("get config dir: " +:+ err)
  | Ok configDir =>
      let path := Join host [configDir; credentialsFile] in
      match ReadFile host path w with
      | inl err =>
          if notExist err then
            Err ("credentials not found at " +:+ path
                 +:+ " - please configure OAuth credentials")
          else Err ("read credentials: " +:+ text err)
      | inr data =>
          match UnmarshalCredentials host data with
          | Err err => Err ("parse credentials: " +:+ err)
          | Ok creds =>
              if (ClientID creds =? "")%string || (ClientSecret creds =? "")%string
              then Err "credentials file missing clientId or clientSecret"
              else Ok (Some creds)
          end
      end
  end.

(** [func LoadToken()], with its two results: the token and the error;
    [Ok None] is [nil, nil]. *)
Definition LoadToken (w : World) : World * result (option oauth2.Token) :=
  match getDataDir w with
  | (w, Err err) => (w, Err err)
  | (w, Ok dataDir) =>
      let path := Join host [dataDir; tokenFile] in
      match ReadFile host path w with
      | inl err =>
          if notExist err then (w, Ok None)
          else (w, Err ("read token: " +:+ text err))
      | inr data =>
          match UnmarshalTokenStore host data with
          | Err err => (w, Err ("parse token: " +:+ err))
          | Ok store =>
              (w, Ok (Some (oauth2.mkToken (AccessToken store) (RefreshToken store)
                              (TokenType store) (Expiry store))))
          end
      end
  end.

(** [func SaveToken(token) error]; [None] is [nil]. *)
Definition SaveToken (token : oauth2.Token) (w : World) : World * option string :=
  match getDataDir w with
  | (w, Err err) => (w, Some err)
  | (w, Ok dataDir) =>
      let store :=
        mkTokenStore (oauth2.AccessToken token) (oauth2.RefreshToken token)
                     (oauth2.TokenType token) (oauth2.Expiry token) in
      match MarshalIndentTokenStore host store with
      | Err err => (w, Some ("marshal token: " +:+ err))
      | Ok data =>
          let path := Join host [dataDir; tokenFile] in
          match WriteFile host path data 384 w with
          | (w, Some err) => (w, Some ("write token: " +:+ err))
          | (w, None) => (w, None)
          end
      end
  end.

(** [func GetClient(ctx)], with its two results; the warning that is
    printed when the refreshed token cannot be saved is not modelled. *)
Definition GetClient (w : World) : World * result unit :=
  match LoadCredentials w with
  | Err err => (w, Err (ErrNotConfigured +:+ ": " +:+ err))
  | Ok None => (w, Err (ErrNotConfigured +:+ ": "))
  | Ok (Some creds) =>
      match LoadToken w with
      | (w, Err err) => (w, Err ("load token: " +:+ err))
      | (w, Ok None) =>
          (w, Err (ErrNotConfigured +:+ ": no token found - run 'gcal auth' first"))
      | (w, Ok (Some token)) =>
          match TokenSource host creds token w with
          | (w, Err err) => (w, Err (ErrTokenExpired +:+ ": " +:+ err))
          | (w, Ok newToken) =>
              if negb (oauth2.AccessToken newToken =? oauth2.AccessToken token)%string
              then ((SaveToken newToken w).1, Ok ())
              else (w, Ok ())
          end
      end
  end.

(** [func IsConfigured() bool] *)
Definition IsConfigured (w : World) : World * bool :=
  match LoadCredentials w with
  | Err _ => (w, false)
  | Ok None => (w, false)
  | Ok (Some _) =>
      match LoadToken w with
      | (w, Ok (Some _)) => (w, true)
      | (w, _) => (w, false)
      end
  end.

End OAuth.

(** The host with another token source. *)
Definition withTokenSource {World : Type}
    (source : Credentials → oauth2.Token → World → World * result oauth2.Token)
    (host : Host World) : Host World :=
  mkHost World (Getenv host) (UserHomeDir host) (MkdirAll host) (ReadFile host)
    (WriteFile host) (Join host) (UnmarshalCredentials host)
    (UnmarshalTokenStore host) (MarshalIndentTokenStore host) source.

(** The record that [SaveToken] writes for a token. *)
Definition storeOf (token : oauth2.Token) : TokenStore :=
  mkTokenStore (oauth2.AccessToken token) (oauth2.RefreshToken token)
               (oauth2.TokenType token) (oauth2.Expiry token).

(** *** What the round trip asks of the host

    A directory that [MkdirAll] has made is there, stays there when a file
    is written, and making it again changes nothing; a file reads as what
    was last written to it; writing does not change the environment. *)
Record HostLaws {World : Type} (host : Host World) := mkHostLaws {
  IsDir : World → string → Prop;
  mkdir_makes : ∀ dir perm w w',
    MkdirAll host dir perm w = (w', None) → IsDir w' dir;
  mkdir_again : ∀ dir perm w,
    IsDir w dir → MkdirAll host dir perm w = (w, None);
  mkdir_env : ∀ dir perm w w' err name,
    MkdirAll host dir perm w = (w', err) →
    Getenv host name w' = Getenv host name w ∧ UserHomeDir host w' = UserHomeDir host w;
  write_keeps_dir : ∀ path data perm w w' dir,
    WriteFile host path data perm w = (w', None) → IsDir w dir → IsDir w' dir;
  write_env : ∀ path data perm w w' err name,
    WriteFile host path data perm w = (w', err) →
    Getenv host name w' = Getenv host name w ∧ UserHomeDir host w' = UserHomeDir host w;
  read_after_write : ∀ path data perm w w',
    WriteFile host path data perm w = (w', None) → ReadFile host path w' = inr data
}.

(** ** A host in memory

    A host for the examples: the environment and the files are finite maps,
    and the two files are written and read as encoding/json does for text
    that is ASCII. *)
Module json.

Definition quote : ascii := ascii_of_nat 34.
Definition backslash : ascii := ascii_of_nat 92.
Definition newline : ascii := ascii_of_nat 10.

Definition hex (n : N) : ascii :=
  if (n <? 10)%N then ascii_of_N (48 + n) else ascii_of_N (87 + n).

(** The text for one byte inside a JSON string: the escapes of the encoder
    of Go, which also escapes [<], [>] and [&].  A byte above 127 is
    copied, as the bytes of a character of valid UTF-8 are. *)
Definition escape (c : ascii) : string :=
  let n := N_of_ascii c in
  if Ascii.eqb c quote then String backslash (String quote "")
  else if Ascii.eqb c backslash then String backslash (String backslash "")
  else if (n =? 8)%N then "\b"
  else if (n =? 12)%N then "\f"
  else if (n =? 10)%N then "\n"
  else if (n =? 13)%N then "\r"
  else if (n =? 9)%N then "\t"
  else if (n <? 32)%N || (n =? 60)%N || (n =? 62)%N || (n =? 38)%N then
    "\u00" +:+ String (hex (n / 16)) (String (hex (n mod 16)) "")
  else String c "".

Fixpoint escapeAll (s : string) : string :=
  match s with
  | String c s' => escape c +:+ escapeAll s'
  | EmptyString => ""
  end.

Definition quoted (s : string) : string :=
  String quote (escapeAll s +:+ String quote "").

(** [json.MarshalIndent(v, "", "  ")] for a record of text fields. *)
Fixpoint members (fields : list (string * string)) : string :=
  match fields with
  | [] => ""
  | [(k, v)] => "  " +:+ quoted k +:+ ": " +:+ quoted v +:+ String newline ""
  | (k, v) :: fields' =>
      "  " +:+ quoted k +:+ ": " +:+ quoted v +:+ "," +:+ String newline ""
      +:+ members fields'
  end.

Definition MarshalIndent (fields : list (string * string)) : string :=
  "{" +:+ String newline "" +:+ members fields +:+ "}".

(** *** Reading an object whose values are strings

    The reader is the one of encoding/json on text in ASCII: a byte above
    127 is copied as it is, an escape from [\ud800] on is refused, and so
    is a member whose value is not a string. *)

Definition isSpace (c : ascii) : bool :=
  let n := N_of_ascii c in ((n =? 32) || (n =? 9) || (n =? 10) || (n =? 13))%N.

Fixpoint skipSpace (s : string) : string :=
  match s with
  | String c s' => if isSpace c then skipSpace s' else s
  | EmptyString => s
  end.

Definition unhex (c : ascii) : option N :=
  let n := N_of_ascii c in
  if ((48 <=? n) && (n <=? 57))%N then Some (n - 48)%N
  else if ((97 <=? n) && (n <=? 102))%N then Some (n - 87)%N
  else if ((65 <=? n) && (n <=? 70))%N then Some (n - 55)%N
  else None.

(** The UTF-8 text of a character below U+D800. *)
Definition utf8 (n : N) : option string :=
  if (n <? 128)%N then Some (String (ascii_of_N n) "")
  else if (n <? 2048)%N then
    Some (String (ascii_of_N (192 + n / 64)) (String (ascii_of_N (128 + n mod 64)) ""))
  else if (n <? 55296)%N then
    Some (String (ascii_of_N (224 + n / 4096))
            (String (ascii_of_N (128 + n / 64 mod 64))
               (String (ascii_of_N (128 + n mod 64)) "")))
  else None.

(** The text of a JSON string, after its opening quote, and the rest of
    the input after its closing quote. *)
Fixpoint unquote (s : string) : option (string * string) :=
  match s with
  | EmptyString => None
  | String c s' =>
      if Ascii.eqb c quote then Some ("", s')
      else if Ascii.eqb c backslash then
        match s' with
        | String e s'' =>
            let simple (b : nat) :=
              '(t, r) ← unquote s''; Some (String (ascii_of_nat b) t, r) in
            if Ascii.eqb e quote then simple 34%nat
            else if Ascii.eqb e backslash then simple 92%nat
            else if Ascii.eqb e "/"%char then simple 47%nat
            else if Ascii.eqb e "b"%char then simple 8%nat
            else if Ascii.eqb e "f"%char then simple 12%nat
            else if Ascii.eqb e "n"%char then simple 10%nat
            else if Ascii.eqb e "r"%char then simple 13%nat
            else if Ascii.eqb e "t"%char then simple 9%nat
            else if Ascii.eqb e "u"%char then
              match s'' with
              | String h1 (String h2 (String h3 (String h4 s3))) =>
                  a ← unhex h1; b ← unhex h2; c' ← unhex h3; d ← unhex h4;
                  u ← utf8 (((a * 16 + b) * 16 + c') * 16 + d)%N;
                  '(t, r) ← unquote s3;
                  Some (u +:+ t, r)
              | _ => None
              end
            else None
        | EmptyString => None
        end
      else if (N_of_ascii c <? 32)%N then None
      else '(t, r) ← unquote s'; Some (String c t, r)
  end.

Definition readString (s : string) : option (string * string) :=
  match s with
  | String c s' => if Ascii.eqb c quote then unquote s' else None
  | EmptyString => None
  end.

(** The members of an object after the first, up to the closing brace. *)
Fixpoint readMembers (fuel : nat) (s : string) : option (list (string * string)) :=
  match fuel with
  | O => None
  | S fuel' =>
      '(k, s) ← readString (skipSpace s);
      s ← time.expect ":"%char (skipSpace s);
      '(v, s) ← readString (skipSpace s);
      match skipSpace s with
      | String c s' =>
          if Ascii.eqb c ","%char then
            rest ← readMembers fuel' s'; Some ((k, v) :: rest)
          else if Ascii.eqb c "}"%char then
            match skipSpace s' with EmptyString => Some [(k, v)] | _ => None end
          else None
      | EmptyString => None
      end
  end.

Definition readObject (s : string) : option (list (string * string)) :=
  s ← time.expect "{"%char (skipSpace s);
  match skipSpace s with
  | String "}"%char s' =>
      match skipSpace s' with EmptyString => Some [] | _ => None end
  | _ => readMembers (String.length s) s
  end.

Definition lower (c : ascii) : ascii :=
  let n := N_of_ascii c in
  if ((65 <=? n) && (n <=? 90))%N then ascii_of_N (n + 32) else c.

Fixpoint fold (s : string) : string :=
  match s with
  | String c s' => String (lower c) (fold s')
  | EmptyString => ""
  end.

(** The value of the last member whose name is [name], whatever the case
    of its letters. *)
Definition field (name : string) (obj : list (string * string)) : option string :=
  snd <$> List.find (λ kv, (fold kv.1 =? fold name)%string) (List.rev obj).

End json.

(** [json.Unmarshal] and [json.MarshalIndent] at the two record types, for
    the documents of this development: an object whose members are
    strings, in ASCII.  On other documents encoding/json reads otherwise:
    it puts U+FFFD for bytes that are not UTF-8, reads the escapes from
    [\ud800] on, and accepts members that are not strings.  The theorems on
    [LoadCredentials] and [LoadToken] are stated for any host, or for
    documents in ASCII. *)
Definition decodeCredentials (data : string) : result Credentials :=
  match json.readObject data with
  | None => Err "invalid character"
  | Some obj =>
      Ok (mkCredentials (default "" (json.field "clientId" obj))
                        (default "" (json.field "clientSecret" obj)))
  end.

(** The zero [time.Time]: 0001-01-01T00:00:00Z. *)
Definition zeroTime : time.Time := -62135596800000000000.

Definition decodeTokenStore (data : string) : result TokenStore :=
  match json.readObject data with
  | None => Err "invalid character"
  | Some obj =>
      let expiry :=
        match json.field "expiry" obj with
        | None => Some zeroTime
        | Some text => time.ParseRFC3339 text
        end in
      match expiry with
      | None => Err "parsing time"
      | Some expiry =>
          Ok (mkTokenStore (default "" (json.field "access_token" obj))
                           (default "" (json.field "refresh_token" obj))
                           (default "" (json.field "token_type" obj))
                           expiry)
      end
  end.

Definition encodeTokenStore (store : TokenStore) : result string :=
  let year := time.Year (Expiry store) in
  if (0 <=? year) && (year <=? 9999) then
    Ok (json.MarshalIndent
          [("access_token", AccessToken store);
           ("refresh_token", RefreshToken store);
           ("token_type", TokenType store);
           ("expiry", time.FormatRFC3339Nano (Expiry store))])
  else Err "Time.MarshalJSON: year outside of range [0,9999]".

(** Text in ASCII, and a token whose texts are. *)
Definition isASCII (s : string) : bool :=
  forallb (λ c, (N_of_ascii c <? 128)%N) (list_ascii_of_string s).

Definition asciiToken (token : oauth2.Token) : Prop :=
  isASCII (oauth2.AccessToken token) = true ∧
  isASCII (oauth2.RefreshToken token) = true ∧
  isASCII (oauth2.TokenType token) = true.

(** The state of the host: the environment, the home directory, the files
    with their permissions, and the directories. *)
Record MemWorld := mkMemWorld {
  environ : gmap string string;
  home : option string;
  files : gmap string (string * Z);
  dirs : gset string
}.

Definition memMkdirAll (dir : string) (perm : Z) (w : MemWorld) : MemWorld * option string :=
  match files w !! dir with
  | Some _ => (w, Some ("mkdir " +:+ dir +:+ ": not a directory"))
  | None => (mkMemWorld (environ w) (home w) (files w) ({[dir]} ∪ dirs w), None)
  end.

Definition memReadFile (path : string) (w : MemWorld) : PathError + string :=
  match files w !! path with
  | Some (data, _) => inr data
  | None =>
      if decide (path ∈ dirs w) then
        inl (mkPathError false ("read " +:+ path +:+ ": is a directory"))
      else inl (mkPathError true ("open " +:+ path +:+ ": no such file or directory"))
  end.

(** [os.WriteFile] keeps the permissions of a file that is there. *)
Definition memWriteFile (path data : string) (perm : Z) (w : MemWorld)
    : MemWorld * option string :=
  if decide (path ∈ dirs w) then
    (w, Some ("open " +:+ path +:+ ": is a directory"))
  else
    let perm := match files w !! path with Some (_, p) => p | None => perm end in
    (mkMemWorld (environ w) (home w) (<[path := (data, perm)]> (files w)) (dirs w), None).

(** A token source that has nothing to refresh. *)
Definition mem : Host MemWorld :=
  mkHost MemWorld
    (λ name w, default "" (environ w !! name))
    (λ w, match home w with Some h => Ok h | None => Err "$HOME is not defined" end)
    memMkdirAll memReadFile memWriteFile
    (λ elems, String.concat "/" elems)
    decodeCredentials decodeTokenStore encodeTokenStore
    (λ _ token w, (w, Ok token)).

(** A machine on which the credentials are there and no token is. *)
Definition noToken : MemWorld :=
  mkMemWorld {[ "XDG_CONFIG_HOME" := "/cfg"; "XDG_DATA_HOME" := "/data" ]} None
    {[ "/cfg/gcal/gcal-credentials.json" :=
         (json.MarshalIndent [("clientId", "test-id"); ("clientSecret", "test-secret")],
          420) ]}
    {[ "/cfg/gcal" ]}.

(** The token of [TestSaveToken] of oauth_test.go, with a fixed expiry. *)
Definition testToken : oauth2.Token :=
  oauth2.mkToken "test-access-token" "test-refresh-token" "Bearer"
                 1705330800123000000.

(** ** Events for the examples *)

Definition ev (id start end_ : string) : Event :=
  mkEvent id "" start end_ [] 0 "" false "".

Definition flags (events : list Event) : list bool := map HasConflict events.

Definition rawEvent : calendar.Event :=
  calendar.mkEvent "" "" "" "" "" ""
    (calendar.mkEventDateTime "" "") (calendar.mkEventDateTime "" "") [] None.

Definition withText (description location : string) : calendar.Event :=
  calendar.mkEvent "" "" "" description location ""
    (calendar.mkEventDateTime "" "") (calendar.mkEventDateTime "" "") [] None.

(** The cases [overlapping events], [adjacent events] and [invalid time
    format] of client_test.go. *)
Definition overlapping : list Event :=
  [ev "event1" "2024-01-15T14:00:00Z" "2024-01-15T15:00:00Z";
   ev "event2" "2024-01-15T14:30:00Z" "2024-01-15T15:30:00Z"].

Definition adjacent : list Event :=
  [ev "event1" "2024-01-15T14:00:00Z" "2024-01-15T15:00:00Z";
   ev "event2" "2024-01-15T15:00:00Z" "2024-01-15T16:00:00Z"].

Definition malformed : list Event :=
  [ev "event1" "invalid-time" "2024-01-15T15:00:00Z";
   ev "event2" "2024-01-15T14:00:00Z" "invalid-time"].

(** A provider for which the calendar [work] fails and every other calendar
    is empty. *)
Definition oneFails (window : Window) (calID : string) : result (list calendar.Event) :=
  if (calID =? "work")%string then Err "googleapi: Error 404: Not Found" else Ok [].

(** The case [hangout link takes precedence] of client_test.go. *)
Definition linkAndDescription : calendar.Event :=
  calendar.mkEvent "" "" "" "Also has Zoom: https://zoom.us/j/123456789" ""
    "https://meet.google.com/abc-defg-hij"
    (calendar.mkEventDateTime "" "") (calendar.mkEventDateTime "" "") [] None.

(** ** What the conversion and the fetches leave

    An event as [convertEvent] makes it: accepted by the caller, with a
    start, with attendees, and with their count. *)
Definition wellFormed (e : Event) : Prop :=
  ResponseStatus e = "accepted" ∧ Start e ≠ "" ∧ Attendees e ≠ [] ∧
  AttendeeCount e = Z.of_nat (length (Attendees e)).

(** [FetchTodayEvents] and [FetchUpcomingEvents], by their window. *)
Definition fetchIn (parseTime : string → option time.Time)
    (EventsList : Window → string → result (list calendar.Event))
    (window : Window) (client service : result unit) (now : string)
    (calendarIDs : list string) : option Response :=
  match window with
  | Today => FetchTodayEvents parseTime EventsList client service now calendarIDs
  | Upcoming hours =>
      FetchUpcomingEvents parseTime EventsList client service now calendarIDs hours
  end.

(** A provider with one calendar, [primary], of two accepted meetings that
    overlap and a cancelled one. *)
Definition meeting (id start end_ : string) : calendar.Event :=
  calendar.mkEvent id "confirmed" "Meeting" "" "" ""
    (calendar.mkEventDateTime "" start) (calendar.mkEventDateTime "" end_)
    [calendar.mkEventAttendee "" "" true "accepted";
     calendar.mkEventAttendee "alice@example.com" "Alice" false "accepted"]
    None.

Definition busyDay (window : Window) (calID : string) : result (list calendar.Event) :=
  if (calID =? "primary")%string then
    Ok [meeting "a" "2024-01-15T14:00:00Z" "2024-01-15T15:00:00Z";
        calendar.mkEvent "c" "cancelled" "" "" "" ""
          (calendar.mkEventDateTime "" "") (calendar.mkEventDateTime "" "") [] None;
        meeting "b" "2024-01-15T14:30:00Z" "2024-01-15T15:30:00Z"]
  else Err "googleapi: Error 404: Not Found".

(** What the fetches answer for [busyDay] at nine. *)
Definition busyResponse : Response :=
  NewSuccessResponse "2024-01-15T09:00:00Z"
    [mkEvent "a" "Meeting" "2024-01-15T14:00:00Z" "2024-01-15T15:00:00Z"
       ["Alice"] 1 "" true "accepted";
     mkEvent "b" "Meeting" "2024-01-15T14:30:00Z" "2024-01-15T15:30:00Z"
       ["Alice"] 1 "" true "accepted"].

(** A provider with two calendars: [work] has one meeting at two, and
    [personal] one at one and one at two. *)
Definition sameStart (window : Window) (calID : string) : result (list calendar.Event) :=
  if (calID =? "work")%string then
    Ok [meeting "w1" "2024-01-15T14:00:00Z" "2024-01-15T15:00:00Z"]
  else if (calID =? "personal")%string then
    Ok [meeting "p0" "2024-01-15T13:00:00Z" "2024-01-15T13:30:00Z";
        meeting "p1" "2024-01-15T14:00:00Z" "2024-01-15T14:30:00Z"]
  else Err "googleapi: Error 404: Not Found".

(** What [FetchTodayEvents] answers for [sameStart] at nine, asked [work]
    and then [personal]. *)
Definition sameStartResponse : Response :=
  NewSuccessResponse "2024-01-15T09:00:00Z"
    [mkEvent "p0" "Meeting" "2024-01-15T13:00:00Z" "2024-01-15T13:30:00Z"
       ["Alice"] 1 "" false "accepted";
     mkEvent "w1" "Meeting" "2024-01-15T14:00:00Z" "2024-01-15T15:00:00Z"
       ["Alice"] 1 "" true "accepted";
     mkEvent "p1" "Meeting" "2024-01-15T14:00:00Z" "2024-01-15T14:30:00Z"
       ["Alice"] 1 "" true "accepted"].

(** ** Listing the calendars *)

(** [calendar.CalendarListEntry] of the API, as far as it is read. *)
Module calendarlist.

Record CalendarListEntry := mkCalendarListEntry {
  Id : string;
  Summary : string;
  Primary : bool
}.

End calendarlist.

(** [CalendarInfo] and [CalendarsResponse] of types.go; the module keeps
    their field names apart from those of [Event] and [Response]. *)
Module calendars.

Record CalendarInfo := mkCalendarInfo {
  ID : string;
  Summary : string;
  Primary : bool
}.

Record CalendarsResponse := mkCalendarsResponse {
  Success : bool;
  Calendars : list CalendarInfo;
  Error : string;
  Message : string
}.

End calendars.

(** [func ListCalendars(ctx) CalendarsResponse]; [client] is the result of
    [GetClient], [service] the one of [calendar.NewService] and [list] the
    one of [srv.CalendarList.List().Do()]. *)
Definition ListCalendars (client service : result unit)
    (list : result (list calendarlist.CalendarListEntry))
    : calendars.CalendarsResponse :=
  match client with
  | Err err => calendars.mkCalendarsResponse false [] ErrNotConfigured err
  | Ok _ =>
      match service with
      | Err err =>
          calendars.mkCalendarsResponse false [] ErrAPIError
            ("failed to create calendar service: " +:+ err)
      | Ok _ =>
          match list with
          | Err err =>
              calendars.mkCalendarsResponse false [] ErrAPIError
                ("failed to list calendars: " +:+ err)
          | Ok items =>
              let calendars :=
                fold_left
                  (λ calendars item,
                     (calendars ++
                        [calendars.mkCalendarInfo (calendarlist.Id item)
                           (calendarlist.Summary item)
                           (calendarlist.Primary item)])%list)
                  items [] in
              calendars.mkCalendarsResponse true calendars "" ""
          end
      end
  end.

(** A token source that refreshes every token. *)
Definition refreshing (creds : Credentials) (token : oauth2.Token) (w : MemWorld)
    : MemWorld * result oauth2.Token :=
  (w, Ok (oauth2.mkToken ("fresh-" +:+ oauth2.AccessToken token)
            (oauth2.RefreshToken token) (oauth2.TokenType token)
            (oauth2.Expiry token))).

(** The machine [noToken] once [testToken] is saved. *)
Definition withToken : MemWorld := (SaveToken mem testToken noToken).1.

(** ** The bytes of a link

    A byte that the last class of the patterns takes: not a tab, a line
    feed, a form feed, a carriage return, a space, [<], [>] or a quote. *)
Definition plain (c : ascii) : bool :=
  negb (existsb (Ascii.eqb c)
          (map strings.byte [9; 10; 12; 13; 32; 60; 62; 34]%nat)).

Definition allPlain (s : string) : bool :=
  forallb plain (list_ascii_of_string s).

(** An atom that matches such bytes only. *)
Definition atomPlain (a : regexp.atom) : Prop :=
  match a with
  | regexp.Lit l => allPlain l = true
  | regexp.Star cls | regexp.Plus cls => ∀ c, cls c = true → plain c = true
  end.

(** * Properties *)

(** ** The conflict pass *)

Section ConflictFacts.

Variable parseTime : string → option time.Time.

Local Open Scope nat_scope.


Lemma setHasConflict_id e : setHasConflict (HasConflict e) e = e.
Proof. by destruct e. Qed.

Lemma conflict_setHasConflict b c a a' :
  conflict parseTime (setHasConflict b a) (setHasConflict c a') = conflict parseTime a a'.
Proof. reflexivity. Qed.

Lemma conflict_sym a b : conflict parseTime a b = conflict parseTime b a.
Proof.
  unfold conflict, time.After, time.Before.
  destruct (parseTime (Start a)), (parseTime (End_ a)),
           (parseTime (Start b)), (parseTime (End_ b)); try reflexivity.
  apply andb_comm.
Qed.

Lemma flagsRaised_refl es : flagsRaised es es.
Proof.
  split; [done|]. intros k e Hk. exists e. by rewrite setHasConflict_id.
Qed.

Lemma flagsRaised_trans es1 es2 es3 :
  flagsRaised es1 es2 → flagsRaised es2 es3 → flagsRaised es1 es3.
Proof.
  intros [Hl1 H1] [Hl2 H2]. split; [congruence|].
  intros k e Hk.
  destruct (H1 k e Hk) as (e2 & Hk2 & He2 & Hm2).
  destruct (H2 k e2 Hk2) as (e3 & Hk3 & He3 & Hm3).
  exists e3. split; [done|]. split; [|auto].
  rewrite He3 at 1. rewrite He2. reflexivity.
Qed.

Lemma flagsRaised_alter es k :
  flagsRaised es (alter (setHasConflict true) k es).
Proof.
  split; [apply length_alter|].
  intros k' e Hk'. destruct (decide (k = k')) as [->|Hne].
  - exists (setHasConflict true e).
    rewrite list_lookup_alter_eq, Hk'. done.
  - exists e. rewrite list_lookup_alter_ne, setHasConflict_id by done. done.
Qed.

Lemma markConflict_Some es k :
  k < length es → markConflict k es = Some (alter (setHasConflict true) k es).
Proof.
  intros Hk. unfold markConflict.
  destruct (lookup_lt_is_Some_2 es k Hk) as [e ->]. reflexivity.
Qed.

(** The body of the inner loop as a function of the two events. *)
Lemma checkPair_eq es i j ei ej :
  es !! i = Some ei → es !! j = Some ej →
  checkPair parseTime i j es =
    Some (if conflict parseTime ei ej
          then alter (setHasConflict true) j (alter (setHasConflict true) i es)
          else es).
Proof.
  intros Hi Hj. unfold checkPair, conflict.
  rewrite Hi, Hj. simpl.
  destruct (parseTime (Start ei)), (parseTime (End_ ei)),
           (parseTime (Start ej)), (parseTime (End_ ej)); try reflexivity.
  destruct (time.After _ _ && time.Before _ _); [|reflexivity].
  rewrite markConflict_Some by (by eapply lookup_lt_Some). simpl.
  rewrite markConflict_Some; [done|].
  rewrite length_alter. by eapply lookup_lt_Some.
Qed.

Lemma checkPair_raises es i j :
  i < length es → j < length es →
  ∃ es', checkPair parseTime i j es = Some es' ∧ flagsRaised es es'.
Proof.
  intros Hi Hj.
  destruct (lookup_lt_is_Some_2 es i Hi) as [ei Hei].
  destruct (lookup_lt_is_Some_2 es j Hj) as [ej Hej].
  rewrite (checkPair_eq es i j ei ej) by done.
  eexists. split; [done|].
  destruct (conflict parseTime ei ej); [|apply flagsRaised_refl].
  eapply flagsRaised_trans; apply flagsRaised_alter.
Qed.

(** A loop keeps what every run of its body keeps. *)
Lemma forRange_inv (I : list Event → Prop) js body :
  (∀ j es, j ∈ js → I es → ∃ es', body j es = Some es' ∧ I es') →
  ∀ es, I es → ∃ es', forRange js body es = Some es' ∧ I es'.
Proof.
  induction js as [|j js IH]; intros Hbody es HI; simpl.
  - eauto.
  - destruct (Hbody j es) as (es1 & -> & HI1); [left|done|]. simpl.
    apply IH; [|done]. intros j' es' Hj'. apply Hbody. by right.
Qed.

Lemma forRange_app js1 js2 body es :
  forRange (js1 ++ js2) body es = forRange js1 body es ≫= forRange js2 body.
Proof.
  revert es. induction js1 as [|j js1 IH]; intros es; simpl; [done|].
  destruct (body j es); simpl; [apply IH|done].
Qed.

Lemma innerLoop_raises es0 i es :
  flagsRaised es0 es →
  ∃ es', innerLoop parseTime i es = Some es' ∧ flagsRaised es0 es'.
Proof.
  intros HR. unfold innerLoop.
  apply (forRange_inv (flagsRaised es0)); [|done].
  intros j es1 Hj HR1. apply elem_of_seq in Hj.
  destruct HR as [Hl _]. destruct (HR1) as [Hl1 _].
  destruct (checkPair_raises es1 i j) as (es2 & -> & HR2); [lia..|].
  eexists. split; [done|]. by eapply flagsRaised_trans.
Qed.

Lemma detectConflicts_raises es :
  ∃ es', detectConflicts parseTime es = Some es' ∧ flagsRaised es es'.
Proof.
  unfold detectConflicts.
  apply (forRange_inv (flagsRaised es)); [|apply flagsRaised_refl].
  intros i es1 _ HR1. by apply innerLoop_raises.
Qed.

(** An event read in a later state is the one of the start, up to its
    flag. *)
Lemma flagsRaised_lookup es es' k e' :
  flagsRaised es es' → es' !! k = Some e' →
  ∃ e, es !! k = Some e ∧ e' = setHasConflict (HasConflict e') e ∧
       (HasConflict e = true → HasConflict e' = true).
Proof.
  intros [Hl H] Hk'.
  destruct (lookup_lt_is_Some_2 es k) as [e He].
  { rewrite <- Hl. by eapply lookup_lt_Some. }
  destruct (H k e He) as (e'' & Hk'' & ? & ?).
  exists e. assert (e'' = e') by congruence. subst e''. done.
Qed.

Lemma checkPair_justified es0 es i j :
  i ≠ j → i < length es → j < length es →
  flagsRaised es0 es → flagsJustified parseTime es0 es →
  ∃ es', checkPair parseTime i j es = Some es' ∧ flagsRaised es0 es' ∧ flagsJustified parseTime es0 es'.
Proof.
  intros Hne Hi Hj HR HJ.
  destruct (lookup_lt_is_Some_2 es i Hi) as [ei Hei].
  destruct (lookup_lt_is_Some_2 es j Hj) as [ej Hej].
  rewrite (checkPair_eq es i j ei ej) by done.
  eexists. split; [done|].
  destruct (conflict parseTime ei ej) eqn:Hc; [|done].
  split.
  { eapply flagsRaised_trans; [done|].
    eapply flagsRaised_trans; apply flagsRaised_alter. }
  destruct (flagsRaised_lookup _ _ _ _ HR Hei) as (ei0 & Hei0 & Heqi & _).
  destruct (flagsRaised_lookup _ _ _ _ HR Hej) as (ej0 & Hej0 & Heqj & _).
  assert (Hc0 : conflict parseTime ei0 ej0 = true).
  { rewrite Heqi, Heqj in Hc. by rewrite conflict_setHasConflict in Hc. }
  intros k e' Hk Hflag.
  destruct (decide (k = j)) as [->|Hkj].
  { right. exists i, ej0, ei0. by rewrite conflict_sym. }
  rewrite list_lookup_alter_ne in Hk by done.
  destruct (decide (k = i)) as [->|Hki].
  { right. by exists j, ei0, ej0. }
  rewrite list_lookup_alter_ne in Hk by done.
  by eapply HJ.
Qed.

Lemma detectConflicts_justified es :
  ∃ es', detectConflicts parseTime es = Some es' ∧ flagsRaised es es' ∧ flagsJustified parseTime es es'.
Proof.
  unfold detectConflicts.
  apply (forRange_inv (λ es', flagsRaised es es' ∧ flagsJustified parseTime es es')).
  - intros i es1 _ [HR1 HJ1]. unfold innerLoop.
    apply (forRange_inv (λ es', flagsRaised es es' ∧ flagsJustified parseTime es es'));
      [|done].
    intros j es2 Hj [HR2 HJ2]. apply elem_of_seq in Hj.
    destruct HR1 as [Hl1 _]. destruct (HR2) as [Hl2 _].
    apply checkPair_justified; [lia..|done|done].
  - split; [apply flagsRaised_refl|]. intros k e' Hk Hf. left. eauto.
Qed.

Lemma forRange_split js1 j js2 body es es1 :
  forRange js1 body es = Some es1 →
  forRange (js1 ++ j :: js2) body es = body j es1 ≫= forRange js2 body.
Proof. intros H. by rewrite forRange_app, H. Qed.

Lemma seq_split a n k :
  a ≤ k < a + n → seq a n = (seq a (k - a) ++ k :: seq (S k) (a + n - S k))%list.
Proof.
  intros Hk. replace n with ((k - a) + S (a + n - S k)) at 1 by lia.
  rewrite seq_app. simpl. do 2 f_equal; [lia|f_equal; lia].
Qed.

Lemma checkPair_loop_raises es0 i js es :
  (∀ j, j ∈ js → j < length es0) → i < length es0 →
  flagsRaised es0 es →
  ∃ es', forRange js (checkPair parseTime i) es = Some es' ∧ flagsRaised es0 es'.
Proof.
  intros Hjs Hi HR. apply (forRange_inv (flagsRaised es0)); [|done].
  intros j es1 Hj HR1. destruct (HR1) as [Hl1 _].
  destruct (checkPair_raises es1 i j) as (es2 & -> & HR2);
    [rewrite Hl1; auto..|].
  eexists. split; [done|]. by eapply flagsRaised_trans.
Qed.

(** The inner loop for [i] reaches [j]: an overlap sets both flags. *)
Lemma innerLoop_marks es0 es i j ei ej :
  i < j → flagsRaised es0 es →
  es0 !! i = Some ei → es0 !! j = Some ej → conflict parseTime ei ej = true →
  ∃ es', innerLoop parseTime i es = Some es' ∧ flagsRaised es0 es' ∧
         HasConflict <$> es' !! i = Some true ∧ HasConflict <$> es' !! j = Some true.
Proof.
  intros Hij HR Hi Hj Hc.
  pose proof (lookup_lt_Some _ _ _ Hj) as Hjlt.
  destruct (HR) as [Hl _].
  unfold innerLoop.
  rewrite (seq_split (S i) (length es - S i) j) by lia.
  destruct (checkPair_loop_raises es0 i (seq (S i) (j - S i)) es)
    as (es2 & Hes2 & HR2); [|lia|done|].
  { intros j' Hj'. apply elem_of_seq in Hj'. lia. }
  rewrite (forRange_split _ _ _ _ _ _ Hes2).
  destruct (HR2) as [Hl2 HR2'].
  destruct (HR2' i ei Hi) as (ei2 & Hi2 & Heqi & _).
  destruct (HR2' j ej Hj) as (ej2 & Hj2 & Heqj & _).
  rewrite (checkPair_eq es2 i j ei2 ej2) by done.
  assert (Hc2 : conflict parseTime ei2 ej2 = true).
  { rewrite Heqi, Heqj. by rewrite conflict_setHasConflict. }
  rewrite Hc2.
  set (es3 := alter _ j (alter _ i es2)).
  assert (Hi3 : es3 !! i = Some (setHasConflict true ei2)).
  { unfold es3. rewrite list_lookup_alter_ne by lia.
    by rewrite list_lookup_alter_eq, Hi2. }
  assert (Hj3 : es3 !! j = Some (setHasConflict true ej2)).
  { unfold es3. by rewrite list_lookup_alter_eq, list_lookup_alter_ne, Hj2 by lia. }
  assert (HR3 : flagsRaised es0 es3).
  { eapply flagsRaised_trans; [done|].
    eapply flagsRaised_trans; apply flagsRaised_alter. }
  destruct (checkPair_loop_raises es3 i (seq (S j) (S i + (length es - S i) - S j)) es3)
    as (es4 & Hes4 & HR4); [| |apply flagsRaised_refl|].
  { intros j' Hj'. apply elem_of_seq in Hj'. destruct HR3 as [-> _]. lia. }
  { destruct HR3 as [-> _]. lia. }
  change (Some es3 ≫= ?f) with (f es3). rewrite Hes4.
  exists es4. split; [done|]. split; [by eapply flagsRaised_trans|].
  destruct HR4 as [_ HR4].
  destruct (HR4 i _ Hi3) as (e4i & -> & _ & Hfi).
  destruct (HR4 j _ Hj3) as (e4j & -> & _ & Hfj).
  simpl. by rewrite Hfi, Hfj.
Qed.

(** The pass reaches every pair: an overlap of the events at [i < j] sets
    both flags. *)
Lemma detectConflicts_marks es i j ei ej :
  i < j → es !! i = Some ei → es !! j = Some ej → conflict parseTime ei ej = true →
  ∃ es', detectConflicts parseTime es = Some es' ∧
         HasConflict <$> es' !! i = Some true ∧ HasConflict <$> es' !! j = Some true.
Proof.
  intros Hij Hi Hj Hc.
  pose proof (lookup_lt_Some _ _ _ Hj) as Hjlt.
  unfold detectConflicts.
  rewrite (seq_split 0 (length es) i) by lia.
  destruct (forRange_inv (flagsRaised es) (seq 0 (i - 0)) (innerLoop parseTime))
    with (es := es) as (es1 & Hes1 & HR1); [|apply flagsRaised_refl|].
  { intros i' es' _ HR'. by apply innerLoop_raises. }
  rewrite (forRange_split _ _ _ _ _ _ Hes1).
  destruct (innerLoop_marks es es1 i j ei ej) as (es2 & -> & HR2 & Hi2 & Hj2);
    [done..|].
  change (Some es2 ≫= ?f) with (f es2).
  destruct (forRange_inv (flagsRaised es2) (seq (S i) (0 + length es - S i))
              (innerLoop parseTime))
    with (es := es2) as (es3 & -> & HR3); [|apply flagsRaised_refl|].
  { intros i' es' _ HR'. by apply innerLoop_raises. }
  exists es3. split; [done|].
  destruct HR3 as [_ HR3].
  destruct (es2 !! i) as [e2i|] eqn:Hei; [|done].
  destruct (es2 !! j) as [e2j|] eqn:Hej; [|done].
  destruct (HR3 i _ Hei) as (e3i & -> & _ & Hfi).
  destruct (HR3 j _ Hej) as (e3j & -> & _ & Hfj).
  simpl in *. f_equal; split; f_equal; [apply Hfi|apply Hfj]; congruence.
Qed.

Lemma conflict_overlap a b sa ea sb eb :
  parseTime (Start a) = Some sa → parseTime (End_ a) = Some ea →
  parseTime (Start b) = Some sb → parseTime (End_ b) = Some eb →
  conflict parseTime a b = true ↔ (sb < ea ∧ sa < eb)%Z.
Proof.
  intros Hsa Hea Hsb Heb. unfold conflict, time.After, time.Before.
  rewrite Hsa, Hea, Hsb, Heb, andb_true_iff, !Z.ltb_lt. done.
Qed.

Lemma conflict_unparsed a b :
  parseTime (Start a) = None ∨ parseTime (End_ a) = None ∨
  parseTime (Start b) = None ∨ parseTime (End_ b) = None →
  conflict parseTime a b = false.
Proof.
  unfold conflict.
  destruct (parseTime (Start a)), (parseTime (End_ a)),
           (parseTime (Start b)), (parseTime (End_ b)); try reflexivity.
  intros [H|[H|[H|H]]]; discriminate.
Qed.

(** The pass only sets flags, and only for an overlap. *)
Lemma detectConflicts_monotone (es : list Event) :
  ∃ es', detectConflicts parseTime es = Some es' ∧ length es' = length es ∧
    ∀ k e, es !! k = Some e →
      ∃ e', es' !! k = Some e' ∧ e' = setHasConflict (HasConflict e') e ∧
        (HasConflict e = true → HasConflict e' = true) ∧
        ((∀ j ej, j ≠ k → es !! j = Some ej → conflict parseTime e ej = false) →
         HasConflict e' = HasConflict e).
Proof.
  destruct (detectConflicts_justified es) as (es' & Hes' & [Hl HR] & HJ).
  exists es'. split; [done|]. split; [done|].
  intros k e Hk. destruct (HR k e Hk) as (e' & Hk' & Heq & Hmono).
  exists e'. split; [done|]. split; [done|]. split; [done|].
  intros Hnone. destruct (HasConflict e') eqn:Hf'.
  - destruct (HJ k e' Hk' Hf') as [(e0 & He0 & Hf0)|(j & ek & ej & Hne & Hek & Hej & Hc)].
    + congruence.
    + assert (ek = e) by congruence. subst ek.
      rewrite (Hnone j ej Hne Hej) in Hc. done.
  - destruct (HasConflict e); [|done]. by specialize (Hmono eq_refl).
Qed.

(** C1: for two events of the slice, at [i < j], whose four timestamps are
    read, the test of the pass is the overlap of the open intervals (the
    first ends after the second starts, and starts before the second ends);
    it gives the same answer with the two events exchanged, and it fails for
    events that only touch.  The run of the loop body for the pair sets both
    flags when the test holds and changes nothing otherwise, and an overlap
    leaves both flags set at the end of the pass.  When the two events come
    without a flag and overlap no third event, each of their flags at the
    end of the pass is the answer of the test. *)
Theorem conflict_iff_overlap (es : list Event) (i j : nat) (a b : Event)
    (sa ea sb eb : time.Time) :
  i < j → es !! i = Some a → es !! j = Some b →
  parseTime (Start a) = Some sa → parseTime (End_ a) = Some ea →
  parseTime (Start b) = Some sb → parseTime (End_ b) = Some eb →
  (conflict parseTime a b = true ↔ (sb < ea ∧ sa < eb)%Z) ∧
  conflict parseTime a b = conflict parseTime b a ∧
  (ea = sb ∨ eb = sa → conflict parseTime a b = false) ∧
  checkPair parseTime i j es =
    Some (if conflict parseTime a b
          then alter (setHasConflict true) j (alter (setHasConflict true) i es)
          else es) ∧
  ((sb < ea ∧ sa < eb)%Z →
   ∃ es', detectConflicts parseTime es = Some es' ∧
          HasConflict <$> es' !! i = Some true ∧
          HasConflict <$> es' !! j = Some true) ∧
  (HasConflict a = false → HasConflict b = false →
   (∀ k ek, k ≠ i → k ≠ j → es !! k = Some ek →
      conflict parseTime a ek = false ∧ conflict parseTime b ek = false) →
   ∃ es', detectConflicts parseTime es = Some es' ∧
          HasConflict <$> es' !! i = Some (conflict parseTime a b) ∧
          HasConflict <$> es' !! j = Some (conflict parseTime a b)).
Proof.
  intros Hij Hi Hj Hsa Hea Hsb Heb.
  pose proof (conflict_overlap a b sa ea sb eb Hsa Hea Hsb Heb) as Hiff.
  split; [done|]. split; [apply conflict_sym|]. split.
  { intros Htouch. apply not_true_is_false. rewrite Hiff. lia. }
  split; [by apply checkPair_eq|]. split.
  { intros Hov. apply (detectConflicts_marks es i j a b); [done..|by apply Hiff]. }
  intros Hfa Hfb Hthird.
  destruct (conflict parseTime a b) eqn:Hc.
  { by apply (detectConflicts_marks es i j a b). }
  destruct (detectConflicts_monotone es) as (es' & Hes' & _ & Hall).
  exists es'. split; [done|].
  destruct (Hall i a Hi) as (a' & -> & _ & _ & Hka).
  destruct (Hall j b Hj) as (b' & -> & _ & _ & Hkb).
  simpl. rewrite Hka, Hkb.
  - by rewrite Hfa, Hfb.
  - intros k ek Hk Hek. destruct (decide (k = i)) as [->|Hki].
    + assert (ek = a) by congruence. subst. by rewrite conflict_sym.
    + by apply (Hthird k ek).
  - intros k ek Hk Hek. destruct (decide (k = j)) as [->|Hkj].
    + assert (ek = b) by congruence. by subst.
    + by apply (Hthird k ek).
Qed.

(** C7: when one of the four timestamps of a pair is not read, the run of
    the loop body for the pair returns the slice as it was: no flag is set
    and there is no panic.  The pass goes on to its end: every pair that
    overlaps has both its flags set in the result, and an event of which a
    timestamp is not read, whose pairs are all skipped, has the flag it
    had. *)
Theorem malformed_pair_skipped (es : list Event) (i j : nat) (a b : Event) :
  i < j → es !! i = Some a → es !! j = Some b →
  parseTime (Start a) = None ∨ parseTime (End_ a) = None ∨
  parseTime (Start b) = None ∨ parseTime (End_ b) = None →
  checkPair parseTime i j es = Some es ∧
  ∃ es', detectConflicts parseTime es = Some es' ∧ length es' = length es ∧
    (∀ i' j' a' b', i' < j' → es !! i' = Some a' → es !! j' = Some b' →
       conflict parseTime a' b' = true →
       HasConflict <$> es' !! i' = Some true ∧ HasConflict <$> es' !! j' = Some true) ∧
    (parseTime (Start a) = None ∨ parseTime (End_ a) = None →
     es' !! i = Some a) ∧
    (parseTime (Start b) = None ∨ parseTime (End_ b) = None →
     es' !! j = Some b).
Proof.
  intros Hij Hi Hj Hbad. split.
  { rewrite (checkPair_eq es i j a b) by done.
    by rewrite conflict_unparsed. }
  destruct (detectConflicts_monotone es) as (es' & Hes' & Hl & Hall).
  exists es'. split; [done|]. split; [done|]. split; [|split].
  - intros i' j' a' b' Hij' Hi' Hj' Hc.
    destruct (detectConflicts_marks es i' j' a' b') as (es'' & Hes'' & ?); [done..|].
    by replace es' with es'' by congruence.
  - intros Ha. destruct (Hall i a Hi) as (a' & -> & Heq & _ & Hkeep).
    rewrite Heq, Hkeep, setHasConflict_id; [done|].
    intros k ek _ _. apply conflict_unparsed. tauto.
  - intros Hb. destruct (Hall j b Hj) as (b' & -> & Heq & _ & Hkeep).
    rewrite Heq, Hkeep, setHasConflict_id; [done|].
    intros k ek _ _. apply conflict_unparsed. tauto.
Qed.

End ConflictFacts.

Example parse_1400 : time.ParseRFC3339 "2024-01-15T14:00:00Z" = Some 1705327200000000000.
Proof. reflexivity. Qed.

Example parse_offset :
  time.ParseRFC3339 "2024-01-15T15:00:00+01:00" = time.ParseRFC3339 "2024-01-15T14:00:00Z".
Proof. reflexivity. Qed.

Example parse_invalid : time.ParseRFC3339 "invalid-time" = None.
Proof. reflexivity. Qed.

Example detect_overlap :
  flags <$> detectConflicts time.ParseRFC3339 overlapping = Some [true; true].
Proof. reflexivity. Qed.

(** ** Conversion *)

Section ConvertFacts.

Local Open Scope nat_scope.

Lemma last_snoc (l : list string) x d : List.last (l ++ [x])%list d = x.
Proof. induction l as [|y [|z l] IH]; simpl in *; done. Qed.

Lemma setLast_snoc (l : list string) x y : setLast y (l ++ [x])%list = (l ++ [y])%list.
Proof.
  unfold setLast. rewrite length_app. simpl.
  replace (length l + 1 - 1) with (length l + 0) by lia.
  by rewrite insert_app_r.
Qed.

(** One run of the loop body. *)
Lemma scanAttendee_eq event a :
  scanAttendee event a =
    if calendar.Self a then setResponseStatus (calendar.ResponseStatus a) event
    else if listed a then setAttendees (Attendees event ++ [attendeeName a])%list event
    else event.
Proof.
  unfold scanAttendee, listed, attendeeName.
  destruct (calendar.Self a); [done|]. simpl.
  destruct (calendar.Email a =? "")%string; [done|]. simpl.
  rewrite last_snoc.
  destruct (calendar.DisplayName a =? "")%string eqn:Hd; [|done].
  by rewrite setLast_snoc.
Qed.

(** The loop over the attendees. *)
Lemma scan_eq attendees event :
  fold_left scanAttendee attendees event =
    setResponseStatus
      (match lastSelf attendees with
       | Some a => calendar.ResponseStatus a
       | None => ResponseStatus event
       end)
      (setAttendees
         (Attendees event ++ map attendeeName (List.filter listed attendees))%list
         event).
Proof.
  induction attendees as [|a attendees IH] using rev_ind.
  - destruct event. simpl. by rewrite app_nil_r.
  - rewrite fold_left_app. simpl. rewrite IH, scanAttendee_eq.
    unfold lastSelf. rewrite rev_app_distr, List.filter_app, map_app. simpl.
    destruct (calendar.Self a) eqn:Hs; simpl.
    + replace (listed a) with false by (unfold listed; by rewrite Hs).
      simpl. by rewrite app_nil_r.
    + destruct (listed a) eqn:Hl; simpl.
      * unfold setAttendees, setResponseStatus. simpl. by rewrite app_assoc.
      * by rewrite app_nil_r.
Qed.

(** The event that [convertEvent] returns, when it returns one. *)
Lemma convertEvent_eq item :
  convertEvent item =
    if (calendar.Status item =? "cancelled")%string then None
    else if (calendar.DateTime (calendar.Start item) =? "")%string then None
    else if (length (listedNames item) =? 0) then None
    else if negb (selfResponseStatus item =? "accepted")%string then None
    else Some (mkEvent (calendar.Id item) (calendar.Summary item)
                 (calendar.DateTime (calendar.Start item))
                 (calendar.DateTime (calendar.End_ item))
                 (listedNames item) (Z.of_nat (length (listedNames item)))
                 (extractMeetingURL item) false (selfResponseStatus item)).
Proof.
  unfold convertEvent, eventStatusCancelled, responseStatusAccepted.
  destruct (calendar.Status item =? "cancelled")%string; [done|].
  destruct (calendar.DateTime (calendar.Start item) =? "")%string; [done|].
  rewrite scan_eq. simpl. fold (listedNames item). fold (selfResponseStatus item).
  replace (Z.of_nat (length (listedNames item)) =? 0)%Z
    with (length (listedNames item) =? 0).
  2:{ destruct (listedNames item); done. }
  destruct (length (listedNames item) =? 0); [done|].
  destruct (selfResponseStatus item =? "accepted")%string; done.
Qed.

End ConvertFacts.

(** C2: the conversion returns [nil] for an event that is cancelled, or
    whose start has no time of day, or of which no attendee is listed, or
    for which the caller's own answer is not [accepted]. *)
Theorem convertEvent_discards (item : calendar.Event) :
  calendar.Status item = "cancelled" ∨
  calendar.DateTime (calendar.Start item) = "" ∨
  listedNames item = [] ∨
  selfResponseStatus item ≠ "accepted" →
  convertEvent item = None.
Proof.
  intros H. rewrite convertEvent_eq.
  destruct (String.eqb_spec (calendar.Status item) "cancelled"); [done|].
  destruct (String.eqb_spec (calendar.DateTime (calendar.Start item)) ""); [done|].
  destruct (listedNames item) eqn:Hn; [done|]. simpl.
  destruct (String.eqb_spec (selfResponseStatus item) "accepted"); [|done].
  destruct H as [?|[?|[?|?]]]; done.
Qed.

Lemma convertEvent_discards_witness :
  convertEvent
    (calendar.mkEvent "event2" "cancelled" "Cancelled Meeting" "" "" ""
       (calendar.mkEventDateTime "" "2024-01-15T14:00:00Z")
       (calendar.mkEventDateTime "" "2024-01-15T15:00:00Z") [] None) = None.
Proof. apply convertEvent_discards. left. reflexivity. Defined.

(** C8: the scan of the attendees appends, for every entry that is not the
    caller's own and has an address, its display name, or its address when
    the display name is empty, in the order of the entries; the event that
    is returned carries this list, and its count is the length of the list.
    An entry without display name and with the address
    [no-name@example.com] gives the list of that address alone. *)
Theorem convertEvent_attendees (item : calendar.Event) :
  (∀ event,
     Attendees (fold_left scanAttendee (calendar.Attendees item) event) =
       (Attendees event ++
        map (λ a, if (calendar.DisplayName a =? "")%string
                  then calendar.Email a else calendar.DisplayName a)
            (List.filter
               (λ a, negb (calendar.Self a) && negb (calendar.Email a =? "")%string)
               (calendar.Attendees item)))%list) ∧
  (∀ e, convertEvent item = Some e →
     Attendees e = listedNames item ∧
     AttendeeCount e = Z.of_nat (length (Attendees e))) ∧
  (Attendees <$>
     convertEvent
       (calendar.mkEvent "event8" "" "Meeting" "" "" ""
          (calendar.mkEventDateTime "" "2024-01-15T14:00:00Z")
          (calendar.mkEventDateTime "" "2024-01-15T15:00:00Z")
          [calendar.mkEventAttendee "" "" true "accepted";
           calendar.mkEventAttendee "no-name@example.com" "" false ""]
          None)) = Some ["no-name@example.com"].
Proof.
  split; [|split].
  - intros event. by rewrite scan_eq.
  - intros e. rewrite convertEvent_eq. repeat case_match; try done.
    intros [= <-]. done.
  - reflexivity.
Qed.

(** C10: the pass never clears a flag.  It returns a slice of the same
    length in which every event is the one it was, but for a flag that may
    have been set; a flag that was set stays set, and the flag of an event
    that overlaps no other event (the test fails for every pair it is in,
    as it does when a timestamp of the pair is not read) keeps its value.
    That value is [false] for an event that comes from the conversion. *)
Theorem conflict_flag_monotone (parseTime : string → option time.Time) (es : list Event) :
  (∃ es', detectConflicts parseTime es = Some es' ∧ length es' = length es ∧
    ∀ k e, es !! k = Some e →
      ∃ e', es' !! k = Some e' ∧ e' = setHasConflict (HasConflict e') e ∧
        (HasConflict e = true → HasConflict e' = true) ∧
        ((∀ j ej, j ≠ k → es !! j = Some ej → conflict parseTime e ej = false) →
         HasConflict e' = HasConflict e)) ∧
  (∀ item e, convertEvent item = Some e → HasConflict e = false).
Proof.
  split; [apply detectConflicts_monotone|].
  intros item e. rewrite convertEvent_eq. repeat case_match; try done.
  intros [= <-]. done.
Qed.

(** ** Meeting URLs *)

Lemma find_first {A} (f : A → bool) l1 x l2 :
  (∀ y, y ∈ l1 → f y = false) → f x = true →
  List.find f (l1 ++ x :: l2) = Some x.
Proof.
  intros Hl1 Hx. induction l1 as [|y l1 IH]; simpl.
  - by rewrite Hx.
  - rewrite (Hl1 y) by left. apply IH. intros z Hz. apply Hl1. by right.
Qed.

Lemma find_nothing {A} (f : A → bool) l :
  (∀ y, y ∈ l → f y = false) → List.find f l = None.
Proof.
  intros Hl. induction l as [|y l IH]; simpl; [done|].
  rewrite (Hl y) by left. apply IH. intros z Hz. apply Hl. by right.
Qed.

Lemma usable_false ep :
  calendar.EntryPointType ep ≠ "video" ∨ calendar.Uri ep = "" →
  (calendar.EntryPointType ep =? "video")%string
    && negb (calendar.Uri ep =? "")%string = false.
Proof.
  intros [H| ->].
  - apply String.eqb_neq in H. by rewrite H.
  - by rewrite andb_false_r.
Qed.

Lemma extractMeetingURL_eq item :
  extractMeetingURL item =
    if negb (calendar.HangoutLink item =? "")%string then calendar.HangoutLink item
    else
      match List.find (λ ep, (calendar.EntryPointType ep =? "video")%string
                             && negb (calendar.Uri ep =? "")%string)
                      (entryPoints item) with
      | Some ep => calendar.Uri ep
      | None =>
          match List.find (λ pattern,
                             negb (regexp.FindString pattern (searchIn item) =? "")%string)
                          meetingPatterns with
          | Some pattern => strings.TrimSpace (regexp.FindString pattern (searchIn item))
          | None => ""
          end
      end.
Proof.
  unfold extractMeetingURL, entryPoints, searchIn.
  destruct (calendar.conferenceData item); reflexivity.
Qed.

(** C3, as the code has it: a direct video link that is not empty is
    returned, whatever the rest of the event; without one, the address of
    the first entry point of type [video] whose address is not empty is
    returned; without such an entry point, the match of the first pattern,
    in the order of [meetingPatterns], that matches the description, a
    space and the location, without the white space around it; and the
    empty string when no pattern matches. *)
Theorem extractMeetingURL_precedence (item : calendar.Event) :
  (calendar.HangoutLink item ≠ "" →
   extractMeetingURL item = calendar.HangoutLink item) ∧
  (calendar.HangoutLink item = "" →
   ∀ l1 ep l2, entryPoints item = (l1 ++ ep :: l2)%list →
     (∀ ep', ep' ∈ l1 →
        calendar.EntryPointType ep' ≠ "video" ∨ calendar.Uri ep' = "") →
     calendar.EntryPointType ep = "video" → calendar.Uri ep ≠ "" →
     extractMeetingURL item = calendar.Uri ep) ∧
  (calendar.HangoutLink item = "" →
   (∀ ep, ep ∈ entryPoints item →
      calendar.EntryPointType ep ≠ "video" ∨ calendar.Uri ep = "") →
   (∀ ps1 p ps2, meetingPatterns = (ps1 ++ p :: ps2)%list →
      (∀ p', p' ∈ ps1 → regexp.FindString p' (searchIn item) = "") →
      regexp.FindString p (searchIn item) ≠ "" →
      extractMeetingURL item = strings.TrimSpace (regexp.FindString p (searchIn item))) ∧
   ((∀ p, p ∈ meetingPatterns → regexp.FindString p (searchIn item) = "") →
    extractMeetingURL item = "")).
Proof.
  rewrite extractMeetingURL_eq. split; [|split].
  - intros H. apply String.eqb_neq in H. by rewrite H.
  - intros -> l1 ep l2 -> Hl1 Hty Huri.
    change (negb ("" =? "")%string) with false. cbv iota.
    rewrite (find_first _ l1 ep l2); [done| |].
    + intros ep' Hep'. by apply usable_false, Hl1.
    + rewrite Hty. apply String.eqb_neq in Huri. by rewrite Huri.
  - intros -> Hnone.
    change (negb ("" =? "")%string) with false. cbv iota.
    rewrite find_nothing by (intros ep Hep; by apply usable_false, Hnone).
    split.
    + intros ps1 p ps2 -> Hps1 Hp.
      rewrite (find_first _ ps1 p ps2); [done| |].
      * intros p' Hp'. by rewrite Hps1.
      * apply String.eqb_neq in Hp. by rewrite Hp.
    + intros Hall. rewrite find_nothing; [done|].
      intros p Hp. by rewrite Hall.
Qed.

Lemma extractMeetingURL_precedence_witness :
  extractMeetingURL linkAndDescription = "https://meet.google.com/abc-defg-hij".
Proof.
  refine (proj1 (extractMeetingURL_precedence linkAndDescription) _).
  simpl. discriminate.
Defined.

(** C3 as it is stated fails: with no direct link and two entry points of
    type [video], the first with an empty address, the address that is
    returned is the one of the second. *)
Lemma first_video_entry_not_returned :
  let first := calendar.mkEntryPoint "video" "" in
  let item :=
    calendar.mkEvent "" "" "" "" "" ""
      (calendar.mkEventDateTime "" "") (calendar.mkEventDateTime "" "") []
      (Some (calendar.mkConferenceData
               [first; calendar.mkEntryPoint "video" "https://zoom.us/j/123456789"])) in
  calendar.HangoutLink item = "" ∧
  List.find (λ ep, (calendar.EntryPointType ep =? "video")%string) (entryPoints item)
    = Some first ∧
  extractMeetingURL item = "https://zoom.us/j/123456789" ∧
  extractMeetingURL item ≠ calendar.Uri first.
Proof. repeat split. discriminate. Qed.

(** ** The order of strings *)

Lemma ltb_lt s1 s2 : (s1 <? s2)%string = true ↔ String_as_OT.lt s1 s2.
Proof.
  unfold String.ltb. rewrite <- String_as_OT.cmp_lt. unfold String_as_OT.cmp.
  destruct (s1 ?= s2)%string; split; congruence.
Qed.

Lemma ltb_irrefl s : (s <? s)%string = false.
Proof.
  unfold String.ltb.
  by replace (s ?= s)%string with Eq by (symmetry; by apply String_as_OT.cmp_eq).
Qed.

Lemma ltb_trans s1 s2 s3 :
  (s1 <? s2)%string = true → (s2 <? s3)%string = true → (s1 <? s3)%string = true.
Proof. rewrite !ltb_lt. apply String_as_OT.lt_trans. Qed.

Lemma ltb_asym s1 s2 : (s1 <? s2)%string = true → (s2 <? s1)%string = false.
Proof.
  intros H. apply not_true_is_false. intros H'.
  pose proof (ltb_trans _ _ _ H H') as Hrefl. by rewrite ltb_irrefl in Hrefl.
Qed.

Lemma ltb_total s1 s2 :
  (s1 <? s2)%string = false → (s2 <? s1)%string = false → s1 = s2.
Proof.
  unfold String.ltb. intros H1 H2. apply String_as_OT.cmp_eq.
  unfold String_as_OT.cmp.
  pose proof (String_as_OT.cmp_antisym s1 s2) as Ha. unfold String_as_OT.cmp in Ha.
  destruct (s1 ?= s2)%string, (s2 ?= s1)%string; simpl in *; congruence.
Qed.

Lemma leb_trans s1 s2 s3 :
  (s2 <? s1)%string = false → (s3 <? s2)%string = false → (s3 <? s1)%string = false.
Proof.
  intros H12 H23. apply not_true_is_false. intros H31.
  destruct (s1 <? s2)%string eqn:H.
  - by rewrite (ltb_trans _ _ _ H31 H) in H23.
  - rewrite (ltb_total _ _ H H12) in H31. by rewrite H31 in H23.
Qed.

(** ** The stable sort *)

Section SortFacts.

Context {A : Type} (key : A → string).

Local Abbreviation less := (keyLess key).
Local Abbreviation le := (keyLe key).

Lemma insert_perm x l : sort.insert less x l ≡ₚ x :: l.
Proof.
  induction l as [|y l IH]; simpl; [done|].
  destruct (less y x); [|done]. rewrite IH. apply Permutation_swap.
Qed.

Lemma SliceStable_perm l : sort.SliceStable less l ≡ₚ l.
Proof.
  induction l as [|x l IH]; simpl; [done|].
  unfold sort.SliceStable in *. simpl. by rewrite insert_perm, IH.
Qed.

Lemma insert_sorted x l :
  StronglySorted le l → StronglySorted le (sort.insert less x l).
Proof.
  induction 1 as [|y l Hl IH Hy]; simpl.
  - repeat constructor.
  - destruct (less y x) eqn:Hyx.
    + constructor; [done|]. rewrite insert_perm. constructor; [|done].
      unfold keyLe, keyLess in *. by apply ltb_asym.
    + constructor; [by constructor|]. constructor; [done|].
      eapply Forall_impl; [done|]. intros z Hz. unfold keyLe, keyLess in *.
      by eapply leb_trans.
Qed.

Lemma SliceStable_sorted l : StronglySorted le (sort.SliceStable less l).
Proof.
  induction l as [|x l IH]; [constructor|].
  unfold sort.SliceStable in *. simpl. by apply insert_sorted.
Qed.

(** An insertion goes over no element of the same key. *)
Lemma insert_filter s x l :
  List.filter (λ a, (key a =? s)%string) (sort.insert less x l) =
  List.filter (λ a, (key a =? s)%string) (x :: l).
Proof.
  induction l as [|y l IH]; [done|]. simpl.
  destruct (less y x) eqn:Hyx; [|done]. simpl. rewrite IH. simpl.
  destruct (String.eqb_spec (key y) s) as [Hy|]; [|done].
  destruct (String.eqb_spec (key x) s) as [Hx|]; [|done].
  unfold keyLess in Hyx. by rewrite Hy, Hx, ltb_irrefl in Hyx.
Qed.

Lemma SliceStable_stable s l :
  List.filter (λ a, (key a =? s)%string) (sort.SliceStable less l) =
  List.filter (λ a, (key a =? s)%string) l.
Proof.
  induction l as [|x l IH]; [done|].
  unfold sort.SliceStable in *. simpl. rewrite insert_filter. simpl. by rewrite IH.
Qed.

(** Two ordered lists with the same elements of every key, in the same
    order, are one list: the contract of a stable sort has one solution. *)
Lemma stable_sort_unique l1 l2 :
  StronglySorted le l1 → StronglySorted le l2 →
  (∀ s, List.filter (λ a, (key a =? s)%string) l1 =
        List.filter (λ a, (key a =? s)%string) l2) →
  l1 = l2.
Proof.
  intros H1. revert l2. induction H1 as [|x l1 Hl1 IH Hx]; intros l2 H2 Hf.
  - destruct l2 as [|y l2]; [done|].
    specialize (Hf (key y)). simpl in Hf. by rewrite String.eqb_refl in Hf.
  - destruct H2 as [|y l2 Hl2 Hy].
    { specialize (Hf (key x)). simpl in Hf. by rewrite String.eqb_refl in Hf. }
    assert (Hxy : key x = key y).
    { apply ltb_total.
      - (* x is in y :: l2, and y is not after the elements of l2 *)
        pose proof (Hf (key x)) as Hfx. simpl in Hfx.
        rewrite (String.eqb_refl (key x)) in Hfx.
        destruct (key y =? key x)%string eqn:E.
        { apply String.eqb_eq in E. rewrite E. apply ltb_irrefl. }
        assert (Hxin : In x (List.filter (λ a, (key a =? key x)%string) l2)).
        { rewrite <- Hfx. by left. }
        apply filter_In in Hxin as [Hxin _].
        rewrite Forall_forall in Hy. apply (Hy x). by apply list_elem_of_In.
      - (* y is in x :: l1, and x is not after the elements of l1 *)
        pose proof (Hf (key y)) as Hfy. simpl in Hfy.
        rewrite (String.eqb_refl (key y)) in Hfy.
        destruct (key x =? key y)%string eqn:E.
        { apply String.eqb_eq in E. rewrite E. apply ltb_irrefl. }
        assert (Hyin : In y (List.filter (λ a, (key a =? key y)%string) l1)).
        { rewrite Hfy. by left. }
        apply filter_In in Hyin as [Hyin _].
        rewrite Forall_forall in Hx. apply (Hx y). by apply list_elem_of_In. }
    assert (x = y).
    { pose proof (Hf (key x)) as Hfx. simpl in Hfx.
      rewrite <- Hxy, String.eqb_refl in Hfx. congruence. }
    subst y. f_equal. apply IH; [done|].
    intros s. specialize (Hf s). simpl in Hf.
    destruct (key x =? s)%string; congruence.
Qed.

End SortFacts.

(** ** Fetching *)

Section FetchFacts.

Variable parseTime : string → option time.Time.
Variable EventsList : Window → string → result (list calendar.Event).

Lemma appendConverted_eq items allEvents :
  fold_left appendConverted items allEvents = (allEvents ++ omap convertEvent items)%list.
Proof.
  revert allEvents. induction items as [|item items IH]; intros allEvents; simpl.
  - by rewrite app_nil_r.
  - rewrite IH. unfold appendConverted.
    destruct (convertEvent item); simpl; [by rewrite <- app_assoc|done].
Qed.

(** The loop over the calendars gathers every message and every event. *)
Lemma fetchCalendar_eq window calendarIDs st :
  fold_left (fetchCalendar EventsList window) calendarIDs st =
    ((st.1 ++ collected EventsList window calendarIDs)%list,
     (st.2 ++ failures EventsList window calendarIDs)%list).
Proof.
  revert st. induction calendarIDs as [|calID calendarIDs IH]; intros [evs errs]; simpl.
  - by rewrite !app_nil_r.
  - rewrite IH. unfold fetchCalendar. simpl.
    destruct (EventsList window calID); simpl.
    + by rewrite appendConverted_eq, <- app_assoc.
    + by rewrite <- app_assoc.
Qed.

End FetchFacts.

Section FetchTheorems.

Variable parseTime : string → option time.Time.
Variable EventsList : Window → string → result (list calendar.Event).

Lemma FetchTodayEvents_eq now calendarIDs :
  FetchTodayEvents parseTime EventsList (Ok ()) (Ok ()) now calendarIDs =
    let ids := askedCalendars calendarIDs in
    let errors := failures EventsList Today ids in
    let events := collected EventsList Today ids in
    match errors, events with
    | _ :: _, [] =>
        Some (NewErrorResponse ErrAPIError
                ("failed to fetch events: " +:+ strings.Join errors "; "))
    | _, _ =>
        NewSuccessResponse now <$>
          detectConflicts parseTime (sort.SliceStable startLess events)
    end.
Proof.
  unfold FetchTodayEvents.
  replace (if (length calendarIDs =? 0)%nat then ["primary"] else calendarIDs)
    with (askedCalendars calendarIDs) by (by destruct calendarIDs).
  rewrite fetchCalendar_eq. simpl.
  destruct (failures _ _ _) as [|msg errors], (collected _ _ _) as [|e events];
    reflexivity.
Qed.

Lemma askedCalendars_nonempty calendarIDs : askedCalendars calendarIDs ≠ [].
Proof. by destruct calendarIDs. Qed.

Lemma failures_all_fail window ids :
  (∀ calID, calID ∈ ids → ∃ err, EventsList window calID = Err err) →
  collected EventsList window ids = [] ∧
  Forall2 (λ calID msg, ∃ err, EventsList window calID = Err err ∧
                               msg = "calendar " +:+ calID +:+ ": " +:+ err)
          ids (failures EventsList window ids).
Proof.
  induction ids as [|calID ids IH]; intros Hall; simpl; [by split|].
  destruct IH as [IHc IHf]. { intros c Hc. apply Hall. by right. }
  destruct (Hall calID) as [err Herr]; [by left|].
  rewrite Herr. simpl. split; [done|]. constructor; [by exists err|done].
Qed.

(** C4, as the code has it: the failures of the queries are gathered and
    the loop goes on.  The answer is the error [api_error], with the
    messages of all the calendars that failed, when at least one query
    failed and no event was converted, from any calendar; this is so when
    every query fails.  Otherwise the answer is a success with the merged
    events, and no error is reported; this is so when at least one event
    was converted. *)
Theorem fetch_partial_failure (now : string) (calendarIDs : list string) :
  let ids := askedCalendars calendarIDs in
  let errors := failures EventsList Today ids in
  let events := collected EventsList Today ids in
  ∃ resp,
    FetchTodayEvents parseTime EventsList (Ok ()) (Ok ()) now calendarIDs = Some resp ∧
    (Success resp = false ↔ errors ≠ [] ∧ events = []) ∧
    (Success resp = false →
     resp = NewErrorResponse ErrAPIError
              ("failed to fetch events: " +:+ strings.Join errors "; ")) ∧
    (Success resp = true →
     ∃ merged,
       detectConflicts parseTime (sort.SliceStable startLess events) = Some merged ∧
       resp = NewSuccessResponse now merged) ∧
    ((∀ calID, calID ∈ ids → ∃ err, EventsList Today calID = Err err) →
     Success resp = false ∧
     Forall2 (λ calID msg, ∃ err, EventsList Today calID = Err err ∧
                                  msg = "calendar " +:+ calID +:+ ": " +:+ err)
             ids errors) ∧
    (events ≠ [] → Success resp = true).
Proof.
  intros ids errors events.
  rewrite FetchTodayEvents_eq. cbv zeta. fold ids. fold errors. fold events.
  destruct (detectConflicts_raises parseTime (sort.SliceStable startLess events))
    as (merged & Hmerged & _).
  pose proof (askedCalendars_nonempty calendarIDs) as Hids. fold ids in Hids.
  assert (Hall : (∀ calID, calID ∈ ids → ∃ err, EventsList Today calID = Err err) →
                 events = [] ∧ errors ≠ [] ∧
                 Forall2 (λ calID msg, ∃ err, EventsList Today calID = Err err ∧
                                  msg = "calendar " +:+ calID +:+ ": " +:+ err)
                         ids errors).
  { intros Hall. destruct (failures_all_fail Today ids Hall) as [Hc Hf].
    split; [done|]. split; [|done]. intros Hnil. fold errors in Hf.
    rewrite Hnil in Hf. inversion Hf. by subst. }
  clearbody ids errors events.
  destruct errors as [|msg errors], events as [|e events]; rewrite ?Hmerged; simpl;
    (eexists; split; [reflexivity|]); simpl.
  - split; [split; [done|by intros [? _]]|]. split; [done|]. split; [eauto|].
    split; [|done]. intros H. by destruct (Hall H) as (_ & ? & _).
  - split; [split; [done|by intros [_ ?]]|]. split; [done|]. split; [eauto|].
    split; [|done]. intros H. by destruct (Hall H) as (? & _).
  - split; [done|]. split; [done|]. split; [done|].
    split; [|done]. intros H. by destruct (Hall H) as (_ & _ & ?).
  - split; [split; [done|by intros [_ ?]]|]. split; [done|]. split; [eauto|].
    split; [|done]. intros H. by destruct (Hall H) as (? & _).
Qed.

End FetchTheorems.

(** C4 as it is stated fails: of two calendars, [work] fails and [personal]
    succeeds with no event; the answer is the error, not a success. *)
Lemma partial_success_reported_as_error :
  oneFails Today "personal" = Ok [] ∧
  FetchTodayEvents time.ParseRFC3339 oneFails (Ok ()) (Ok ())
    "2024-01-15T09:00:00Z" ["work"; "personal"]
  = Some (NewErrorResponse ErrAPIError
            "failed to fetch events: calendar work: googleapi: Error 404: Not Found").
Proof. split; reflexivity. Qed.

(** ** The text of times and of JSON strings *)

Section TextFacts.

Import time.

Lemma append_cons x (a b : string) : String x a +:+ b = String x (a +:+ b).
Proof. reflexivity. Qed.

Lemma append_assoc (a b c : string) : (a +:+ b) +:+ c = a +:+ (b +:+ c).
Proof.
  induction a as [|x a IH]; [reflexivity|].
  by rewrite !append_cons, IH.
Qed.

Lemma unquote_escape c t :
  json.unquote (json.escape c +:+ t) =
    '(u, r) ← json.unquote t; Some (String c u, r).
Proof. destruct c as [[] [] [] [] [] [] [] []]; reflexivity. Qed.

Lemma unquote_escapeAll s rest :
  json.unquote (json.escapeAll s +:+ String json.quote rest) = Some (s, rest).
Proof.
  induction s as [|c s IH]; [reflexivity|].
  cbn [json.escapeAll]. by rewrite append_assoc, unquote_escape, IH.
Qed.



Lemma digit_dchar d : digit (dchar d) = Some (d mod 10).
Proof.
  unfold dchar. pose proof (Z.mod_pos_bound d 10 ltac:(lia)) as H.
  assert (Hc : d mod 10 = 0 ∨ d mod 10 = 1 ∨ d mod 10 = 2 ∨ d mod 10 = 3 ∨ d mod 10 = 4 ∨
          d mod 10 = 5 ∨ d mod 10 = 6 ∨ d mod 10 = 7 ∨ d mod 10 = 8 ∨ d mod 10 = 9) by lia.
  destruct Hc as [->|[->|[->|[->|[->|[->|[->|[->|[->| ->]]]]]]]]]; reflexivity.
Qed.

Lemma decimal_S w x : decimal (S w) x = decimal w (x / 10) +:+ String (dchar x) "".
Proof. reflexivity. Qed.

Lemma decimal_front w x :
  decimal (S w) x = String (dchar (x / 10 ^ Z.of_nat w)) (decimal w x).
Proof.
  revert x. induction w as [|w IH]; intros x.
  - simpl. unfold dchar. by rewrite Z.div_1_r.
  - rewrite decimal_S, IH, append_cons, <- decimal_S. f_equal. f_equal.
    rewrite Z.div_div by lia. f_equal.
    rewrite Nat2Z.inj_succ, Z.pow_succ_r by lia. lia.
Qed.

Lemma digits_decimal_mod w acc x rest :
  digits w acc (decimal w x +:+ rest) =
    Some (acc * 10 ^ Z.of_nat w + x mod 10 ^ Z.of_nat w, rest).
Proof.
  revert acc. induction w as [|w IH]; intros acc.
  - simpl. rewrite Z.mod_1_r. do 2 f_equal. lia.
  - rewrite decimal_front, append_cons. cbn [digits]. rewrite digit_dchar, IH.
    do 2 f_equal. rewrite Nat2Z.inj_succ, Z.pow_succ_r by lia.
    replace (10 * 10 ^ Z.of_nat w) with (10 ^ Z.of_nat w * 10) by lia.
    rewrite Z.rem_mul_r by lia. ring.
Qed.

Lemma digits_decimal w acc x rest :
  0 ≤ x < 10 ^ Z.of_nat w →
  digits w acc (decimal w x +:+ rest) = Some (acc * 10 ^ Z.of_nat w + x, rest).
Proof. intros Hx. by rewrite digits_decimal_mod, Z.mod_small. Qed.

(** The fraction *)
Lemma fraction_decimal w k acc seen x c rest :
  digit c = None → (w ≤ S k)%nat → (0 < w)%nat ∨ seen = true →
  fraction (10 ^ Z.of_nat k) acc seen (decimal w x +:+ String c rest) =
    Some (acc + (x mod 10 ^ Z.of_nat w) * 10 ^ Z.of_nat (S k - w), String c rest).
Proof.
  intros Hc. revert k acc seen. induction w as [|w IH]; intros k acc seen Hk Hseen.
  - destruct Hseen as [?| ->]; [lia|]. cbn [decimal].
    change ("" +:+ String c rest) with (String c rest).
    cbn [fraction]. rewrite Hc, Z.mod_1_r. do 2 f_equal. lia.
  - rewrite decimal_front, append_cons. cbn [fraction]. rewrite digit_dchar.
    destruct k as [|k].
    + assert (w = 0%nat) by lia. subst w. cbn [decimal].
      change ("" +:+ String c rest) with (String c rest).
      cbn [fraction]. rewrite Hc. do 2 f_equal.
      change (Z.of_nat 0) with 0. change (Z.of_nat 1) with 1.
      change (1 - 1)%nat with 0%nat. change (Z.of_nat 0) with 0.
      rewrite Z.pow_0_r, Z.pow_1_r, Z.div_1_r. lia.
    + replace (10 ^ Z.of_nat (S k) / 10) with (10 ^ Z.of_nat k).
      2:{ rewrite Nat2Z.inj_succ, Z.pow_succ_r by lia.
          by rewrite Z.mul_comm, Z.div_mul by lia. }
      rewrite IH by (auto; lia). do 2 f_equal.
      replace (S (S k) - S w)%nat with (S k - w)%nat by lia.
      rewrite (Nat2Z.inj_succ w), (Z.pow_succ_r _ (Z.of_nat w)) by lia.
      replace (10 * 10 ^ Z.of_nat w) with (10 ^ Z.of_nat w * 10) by lia.
      rewrite Z.rem_mul_r by lia.
      replace (Z.of_nat (S k)) with (Z.of_nat (S k - w) + Z.of_nat w) by lia.
      rewrite Z.pow_add_r by lia. ring.
Qed.


Lemma allFrom_spec n z0 f :
  allFrom n z0 f = true → ∀ z, z0 ≤ z < z0 + Z.of_nat n → f z = true.
Proof.
  revert z0. induction n as [|n IH]; intros z0 H z Hz; [lia|].
  simpl in H. apply andb_true_iff in H as [H1 H2].
  destruct (decide (z = z0)) as [->|]; [done|]. apply (IH (z0 + 1)); [done|lia].
Qed.

Lemma checkDay_era : allFrom (Z.to_nat 146097) 0 checkDay = true.
Proof. vm_compute. reflexivity. Qed.

Lemma civil_era z :
  let era := (z + 719468) / 146097 in
  let doe := (z + 719468) mod 146097 in
  civilFromDays z =
    let '(y, m, d) := civilFromDays (doe - 719468) in (y + era * 400, m, d).
Proof.
  intros era doe. unfold civilFromDays.
  replace (doe - 719468 + 719468) with doe by lia.
  assert (Hdoe : 0 ≤ doe < 146097) by (apply Z.mod_pos_bound; lia).
  rewrite (Z.div_small doe) by lia.
  replace (doe - 0 * 146097) with doe by lia.
  replace (z + 719468 - (z + 719468) / 146097 * 146097) with doe.
  2:{ unfold doe. rewrite Z.mod_eq by lia. lia. }
  fold era.
  set (yoe := (doe - doe / 1460 + doe / 36524 - doe / 146096) / 365).
  set (doy := doe - (365 * yoe + yoe / 4 - yoe / 100)).
  set (mp := (5 * doy + 2) / 153).
  destruct (_ <=? 2); f_equal; f_equal; lia.
Qed.

Lemma isLeap_era y e : isLeap (y + e * 400) = isLeap y.
Proof.
  unfold isLeap.
  replace ((y + e * 400) mod 4) with (y mod 4).
  2:{ replace (e * 400) with (e * 100 * 4) by lia. by rewrite Z.mod_add by lia. }
  replace ((y + e * 400) mod 100) with (y mod 100).
  2:{ replace (e * 400) with (e * 4 * 100) by lia. by rewrite Z.mod_add by lia. }
  by rewrite Z.mod_add by lia.
Qed.

Lemma daysFromCivil_era y m d e :
  daysFromCivil (y + e * 400) m d = daysFromCivil y m d + e * 146097.
Proof.
  unfold daysFromCivil.
  replace (if m <=? 2 then y + e * 400 - 1 else y + e * 400)
    with ((if m <=? 2 then y - 1 else y) + e * 400) by (destruct (m <=? 2); lia).
  set (y' := if m <=? 2 then y - 1 else y).
  rewrite Z.div_add by lia.
  set (q := y' / 400).
  replace (y' + e * 400 - (q + e) * 400) with (y' - q * 400) by lia.
  lia.
Qed.

Lemma civilFromDays_valid z y m d :
  civilFromDays z = (y, m, d) →
  1 ≤ m ≤ 12 ∧ 1 ≤ d ≤ daysIn m y ∧ daysFromCivil y m d = z.
Proof.
  rewrite civil_era. cbv zeta.
  set (era := (z + 719468) / 146097). set (doe := (z + 719468) mod 146097).
  assert (Hdoe : 0 ≤ doe < 146097) by (apply Z.mod_pos_bound; lia).
  pose proof (allFrom_spec _ _ _ checkDay_era doe ltac:(lia)) as Hc.
  unfold checkDay in Hc.
  destruct (civilFromDays (doe - 719468)) as [[y0 m0] d0].
  intros [= <- <- <-].
  rewrite !andb_true_iff, !Z.leb_le, Z.eqb_eq in Hc.
  destruct Hc as [[[[? ?] ?] ?] Hd].
  unfold daysIn. rewrite isLeap_era. fold (daysIn m0 y0).
  rewrite daysFromCivil_era, Hd.
  repeat split; try done.
  unfold era, doe. rewrite Z.mod_eq by lia. lia.
Qed.

Lemma trimZeros_decimal w n :
  0 < n < 10 ^ Z.of_nat w →
  ∃ w' x, (0 < w' ≤ w)%nat ∧ trimZeros w n = decimal w' x ∧
          0 ≤ x < 10 ^ Z.of_nat w' ∧ x * 10 ^ Z.of_nat (w - w') = n.
Proof.
  revert n. induction w as [|w IH]; intros n Hn.
  - simpl in Hn. lia.
  - cbn [trimZeros]. destruct (n mod 10 =? 0) eqn:Hm.
    + apply Z.eqb_eq in Hm.
      rewrite Nat2Z.inj_succ, Z.pow_succ_r in Hn by lia.
      destruct (IH (n / 10)) as (w' & x & Hw' & -> & Hx & Hmul).
      { pose proof (Z.div_mod n 10 ltac:(lia)). split; [lia|].
        apply Z.div_lt_upper_bound; lia. }
      exists w', x. split; [lia|]. split; [done|]. split; [done|].
      replace (S w - w')%nat with (S (w - w')) by lia.
      rewrite Nat2Z.inj_succ, Z.pow_succ_r by lia.
      pose proof (Z.div_mod n 10 ltac:(lia)). lia.
    + exists (S w), n. split; [lia|]. split; [done|]. split; [lia|].
      replace (S w - S w)%nat with 0%nat by lia. simpl. lia.
Qed.

Lemma fraction_trimZeros n :
  0 < n < 1000000000 →
  fraction 100000000 0 false (trimZeros 9 n +:+ "Z") = Some (n, "Z").
Proof.
  intros Hn.
  destruct (trimZeros_decimal 9 n) as (w' & x & Hw' & -> & Hx & Hmul); [simpl; lia|].
  change 100000000 with (10 ^ Z.of_nat 8).
  rewrite (fraction_decimal w' 8 0 false x "Z"%char ""); [|done|lia|left; lia].
  rewrite Z.mod_small by done.
  replace (9 - w')%nat with (S 8 - w')%nat in Hmul by lia.
  do 2 f_equal. lia.
Qed.

Lemma expect_cons c rest : expect c (String c rest) = Some rest.
Proof. unfold expect. by rewrite Ascii.eqb_refl. Qed.

(** A time that is written is read as it was. *)
Lemma ParseRFC3339_Format t :
  0 ≤ Year t ≤ 9999 → ParseRFC3339 (FormatRFC3339Nano t) = Some t.
Proof.
  unfold Year, FormatRFC3339Nano, ParseRFC3339.
  set (secs := t / 1000000000). set (ns := t mod 1000000000).
  destruct (civilFromDays (secs / 86400)) as [[y m] d] eqn:Hcivil.
  apply civilFromDays_valid in Hcivil as (Hm & Hd & Hdays).
  set (rem := secs mod 86400). simpl fst. intros Hy.
  assert (Hns : 0 ≤ ns < 1000000000) by (apply Z.mod_pos_bound; lia).
  assert (Hrem : 0 ≤ rem < 86400) by (apply Z.mod_pos_bound; lia).
  assert (Hd31 : d ≤ 31) by (unfold daysIn in Hd; repeat case_match; lia).
  rewrite (digits_decimal 4) by (simpl; lia). cbn [mbind option_bind].
  change ("-" +:+ ?s) with (String "-" s). rewrite expect_cons. cbn [mbind option_bind].
  rewrite (digits_decimal 2) by (simpl; lia). cbn [mbind option_bind].
  change ("-" +:+ ?s) with (String "-" s). rewrite expect_cons. cbn [mbind option_bind].
  rewrite (digits_decimal 2) by (simpl; lia). cbn [mbind option_bind].
  change ("T" +:+ ?s) with (String "T" s). rewrite expect_cons. cbn [mbind option_bind].
  rewrite (digits_decimal 2) by (simpl; Z.div_mod_to_equations; lia).
  cbn [mbind option_bind].
  change (":" +:+ ?s) with (String ":" s). rewrite expect_cons. cbn [mbind option_bind].
  rewrite (digits_decimal 2) by (simpl; Z.div_mod_to_equations; lia).
  cbn [mbind option_bind].
  change (":" +:+ ?s) with (String ":" s). rewrite expect_cons. cbn [mbind option_bind].
  rewrite (digits_decimal 2) by (simpl; Z.div_mod_to_equations; lia).
  cbn [mbind option_bind].
  assert (Hok : (1 <=? 0 * 10 ^ Z.of_nat 2 + m) && (0 * 10 ^ Z.of_nat 2 + m <=? 12)
           && (1 <=? 0 * 10 ^ Z.of_nat 2 + d)
           && (0 * 10 ^ Z.of_nat 2 + d <=? daysIn (0 * 10 ^ Z.of_nat 2 + m) (0 * 10 ^ Z.of_nat 4 + y))
           && (0 * 10 ^ Z.of_nat 2 + rem / 3600 <=? 23)
           && (0 * 10 ^ Z.of_nat 2 + rem mod 3600 / 60 <=? 59)
           && (0 * 10 ^ Z.of_nat 2 + rem mod 60 <=? 59) = true).
  { rewrite !Z.mul_0_l, !Z.add_0_l, !andb_true_iff, !Z.leb_le.
    repeat split; try lia; Z.div_mod_to_equations; lia. }
  assert (Hval : (daysFromCivil (0 * 10 ^ Z.of_nat 4 + y) (0 * 10 ^ Z.of_nat 2 + m)
                    (0 * 10 ^ Z.of_nat 2 + d) * 86400
                  + (0 * 10 ^ Z.of_nat 2 + rem / 3600) * 3600
                  + (0 * 10 ^ Z.of_nat 2 + rem mod 3600 / 60) * 60
                  + (0 * 10 ^ Z.of_nat 2 + rem mod 60) - 0) * 1000000000 + ns = t).
  { rewrite !Z.mul_0_l, !Z.add_0_l, Hdays. unfold rem, ns, secs.
    Z.div_mod_to_equations. lia. }
  destruct (ns =? 0) eqn:Hz.
  - apply Z.eqb_eq in Hz.
    change ("" +:+ "Z") with "Z". cbn [mbind option_bind zone Ascii.eqb Bool.eqb].
    cbn [mbind option_bind]. rewrite Hok. f_equal. rewrite Hz in Hval. exact Hval.
  - apply Z.eqb_neq in Hz.
    change (("." +:+ trimZeros 9 ns) +:+ "Z") with (String "." (trimZeros 9 ns +:+ "Z")).
    cbv beta iota. rewrite fraction_trimZeros by lia.
    cbn [mbind option_bind zone Ascii.eqb Bool.eqb]. cbn [mbind option_bind].
    rewrite Hok. f_equal. exact Hval.
Qed.


Lemma quoted_append v rest :
  json.quoted v +:+ rest = String json.quote (json.escapeAll v +:+ String json.quote rest).
Proof. unfold json.quoted. by rewrite append_cons, append_assoc. Qed.

Lemma readString_quoted v rest :
  json.readString (json.skipSpace (json.quoted v +:+ rest)) = Some (v, rest).
Proof. rewrite quoted_append. cbn. apply unquote_escapeAll. Qed.

Lemma length_append (a b : string) :
  String.length (a +:+ b) = (String.length a + String.length b)%nat.
Proof. induction a as [|x a IH]; [done|]. rewrite append_cons. simpl. by rewrite IH. Qed.

Lemma members_length fields :
  (length fields ≤ String.length (json.members fields))%nat.
Proof.
  induction fields as [|[k v] [|kv fields] IH]; [simpl; lia|simpl; lia|].
  change (json.members ((k, v) :: kv :: fields))
    with ("  " +:+ json.quoted k +:+ ": " +:+ json.quoted v +:+ ","
          +:+ String json.newline "" +:+ json.members (kv :: fields)).
  rewrite !length_append. simpl in *. lia.
Qed.

Lemma readMembers_newline fuel s :
  json.readMembers fuel (String json.newline s) = json.readMembers fuel s.
Proof. destruct fuel; reflexivity. Qed.

Lemma readMembers_members fields fuel :
  fields ≠ [] → (length fields ≤ fuel)%nat →
  json.readMembers fuel (json.members fields +:+ "}") = Some fields.
Proof.
  revert fuel. induction fields as [|[k v] [|kv fields] IH]; intros fuel Hne Hfuel; [done| |].
  - destruct fuel as [|fuel]; [simpl in Hfuel; lia|].
    change (json.members [(k, v)])
      with ("  " +:+ json.quoted k +:+ ": " +:+ json.quoted v +:+ String json.newline "").
    rewrite !append_assoc. cbn [json.readMembers].
    change (json.skipSpace ("  " +:+ ?s)) with (json.skipSpace s).
    rewrite readString_quoted. cbn [mbind option_bind].
    change (json.skipSpace (": " +:+ ?s)) with (String ":" (" " +:+ s)).
    rewrite expect_cons. cbn [mbind option_bind].
    change (json.skipSpace (" " +:+ ?s)) with (json.skipSpace s).
    rewrite readString_quoted. reflexivity.
  - destruct fuel as [|fuel]; [simpl in Hfuel; lia|].
    change (json.members ((k, v) :: kv :: fields))
      with ("  " +:+ json.quoted k +:+ ": " +:+ json.quoted v +:+ ","
            +:+ String json.newline "" +:+ json.members (kv :: fields)).
    rewrite !append_assoc. cbn [json.readMembers].
    change (json.skipSpace ("  " +:+ ?s)) with (json.skipSpace s).
    rewrite readString_quoted. cbn [mbind option_bind].
    change (json.skipSpace (": " +:+ ?s)) with (String ":" (" " +:+ s)).
    rewrite expect_cons. cbn [mbind option_bind].
    change (json.skipSpace (" " +:+ ?s)) with (json.skipSpace s).
    rewrite readString_quoted. cbn [mbind option_bind].
    change (json.skipSpace ("," +:+ ?s)) with (String "," s).
    cbv iota beta. change (Ascii.eqb "," ",") with true. cbv iota.
    change (String json.newline "" +:+ ?s) with (String json.newline s).
    rewrite readMembers_newline, IH; [done|done|simpl in *; lia].
Qed.

Lemma readObject_MarshalIndent fields :
  fields ≠ [] → json.readObject (json.MarshalIndent fields) = Some fields.
Proof.
  intros Hne. unfold json.MarshalIndent, json.readObject.
  change (json.skipSpace ("{" +:+ ?s)) with (String "{" s).
  rewrite expect_cons. cbn [mbind option_bind].
  change (String json.newline "" +:+ ?s) with (String json.newline s).
  destruct fields as [|[k v] fields]; [done|].
  assert (Hhead : ∃ s, json.members ((k, v) :: fields) +:+ "}" =
                      String " " (String " " (String json.quote s))).
  { destruct fields; eexists; cbn [json.members];
      rewrite ?append_assoc, quoted_append; reflexivity. }
  destruct Hhead as [s Hs].
  replace (json.skipSpace (String json.newline (json.members ((k, v) :: fields) +:+ "}")))
    with (String json.quote s) by (by rewrite Hs).
  cbv iota beta.
  change (json.readMembers
            (String.length (String json.newline (json.members ((k, v) :: fields) +:+ "}")))
            (String json.newline (json.members ((k, v) :: fields) +:+ "}")) =
          Some ((k, v) :: fields)).
  rewrite <- (readMembers_members ((k, v) :: fields)
               (String.length (String json.newline (json.members ((k, v) :: fields) +:+ "}"))));
    [|done|].
  - by rewrite readMembers_newline.
  - cbn [String.length]. rewrite length_append.
    pose proof (members_length ((k, v) :: fields)). lia.
Qed.

(** The record that is written is the record that is read. *)
Lemma decode_encode_TokenStore store data :
  encodeTokenStore store = Ok data → decodeTokenStore data = Ok store.
Proof.
  unfold encodeTokenStore, decodeTokenStore.
  destruct ((0 <=? time.Year (Expiry store)) && (time.Year (Expiry store) <=? 9999))
    eqn:Hy; [|done].
  apply andb_true_iff in Hy as [Hy1 Hy2]. apply Z.leb_le in Hy1, Hy2.
  intros [= <-]. rewrite readObject_MarshalIndent by done.
  change (json.field "expiry" _) with (Some (time.FormatRFC3339Nano (Expiry store))).
  cbv beta iota. rewrite ParseRFC3339_Format by lia.
  destruct store. reflexivity.
Qed.

End TextFacts.

(** ** Credentials and tokens *)

Section OAuthFacts.

Context {World : Type} (host : Host World).

Lemma LoadCredentials_not_nil w : LoadCredentials host w ≠ Ok None.
Proof. unfold LoadCredentials. repeat case_match; done. Qed.

Lemma IsConfigured_true w :
  (IsConfigured host w).2 = true ↔
  (∃ creds, LoadCredentials host w = Ok (Some creds)) ∧
  (∃ token, (LoadToken host w).2 = Ok (Some token)).
Proof.
  unfold IsConfigured.
  destruct (LoadCredentials host w) as [[creds|]|err]; simpl.
  - destruct (LoadToken host w) as [w' [[token|]|err]]; simpl.
    + split; [eauto|done].
    + split; [done|]. by intros [_ [? ?]].
    + split; [done|]. by intros [_ [? ?]].
  - split; [done|]. by intros [[? ?] _].
  - split; [done|]. by intros [[? ?] _].
Qed.

(** C9, as the code has it: [IsConfigured] answers [true] when, and only
    when, the load of the credentials succeeds and the load of the token
    succeeds with a token; a load of the token that succeeds with none, as
    when no token file is there, gives [false].  The answer is a function
    of the results of the two loads, and it does not depend on the token
    source, the one operation of the host that goes to the network. *)
Theorem IsConfigured_iff (w : World) :
  ((IsConfigured host w).2 = true ↔
     (∃ creds, LoadCredentials host w = Ok (Some creds)) ∧
     (∃ token, (LoadToken host w).2 = Ok (Some token))) ∧
  ((LoadToken host w).2 = Ok None → (IsConfigured host w).2 = false) ∧
  (∀ w', LoadCredentials host w' = LoadCredentials host w →
         (LoadToken host w').2 = (LoadToken host w).2 →
         (IsConfigured host w').2 = (IsConfigured host w).2) ∧
  (∀ source, IsConfigured (withTokenSource source host) w = IsConfigured host w).
Proof.
  split; [apply IsConfigured_true|]. split; [|split].
  - intros Hnone. apply not_true_is_false. rewrite IsConfigured_true.
    intros [_ [token Htoken]]. congruence.
  - intros w' Hc Ht. apply eq_bool_prop_intro.
    rewrite !Is_true_true, !IsConfigured_true, Hc, Ht. done.
  - reflexivity.
Qed.

Variable laws : HostLaws host.

Lemma getDataDir_again w w0 dir :
  getDataDir host w = (w0, Ok dir) →
  IsDir host laws w0 dir ∧
  ∀ w1, (∀ name, Getenv host name w1 = Getenv host name w0) →
        UserHomeDir host w1 = UserHomeDir host w0 →
        IsDir host laws w1 dir → getDataDir host w1 = (w1, Ok dir).
Proof.
  unfold getDataDir. intros H.
  destruct (Getenv host "XDG_DATA_HOME" w =? "")%string eqn:E;
    [destruct (UserHomeDir host w) as [h|err] eqn:Hh; [|done]|];
    (lazymatch type of H with
     | context [MkdirAll host ?d 493 w] =>
         destruct (MkdirAll host d 493 w) as [w0' [e|]] eqn:Hmk; [done|]
     end);
    injection H as <- <-;
    pose proof (mkdir_makes host laws _ _ _ _ Hmk) as Hdir;
    destruct (mkdir_env host laws _ _ _ _ _ "XDG_DATA_HOME" Hmk) as [Eenv Ehome];
    (split; [done|]); intros w1 Henv Hhome Hdir1;
    rewrite Henv, Eenv, E, ?Hhome, ?Ehome, ?Hh;
    by rewrite (mkdir_again host laws _ 493 _ Hdir1).
Qed.

(** What a save leaves: the data directory is there, and the token file
    reads as the text of the record. *)
Lemma save_written (token : oauth2.Token) (w w1 : World) :
  SaveToken host token w = (w1, None) →
  ∃ dir data,
    MarshalIndentTokenStore host (storeOf token) = Ok data ∧
    getDataDir host w1 = (w1, Ok dir) ∧
    ReadFile host (Join host [dir; tokenFile]) w1 = inr data.
Proof.
  unfold SaveToken. fold (storeOf token).
  destruct (getDataDir host w) as [w0 [dir|err]] eqn:Hdir; [|done].
  destruct (MarshalIndentTokenStore host (storeOf token)) as [data|err] eqn:Hm; [|done].
  destruct (WriteFile host (Join host [dir; tokenFile]) data 384 w0)
    as [w1' [err|]] eqn:Hw; [done|].
  intros [= ->]. exists dir, data. split; [done|].
  destruct (getDataDir_again w w0 dir Hdir) as [Hd Hagain].
  split; [|by apply (read_after_write host laws _ _ _ _ _ Hw)].
  apply Hagain.
  - intros name. by destruct (write_env host laws _ _ _ _ _ _ name Hw).
  - by destruct (write_env host laws _ _ _ _ _ _ "" Hw).
  - by eapply (write_keeps_dir host laws).
Qed.

(** C6: a token that [SaveToken] has saved is the one that [LoadToken]
    returns next, with the same access token, refresh token, type and
    expiry.  The host is any that keeps its files and directories as
    [HostLaws] says, and whose JSON reader gives back the record that its
    JSON writer was given. *)
Theorem token_round_trip (token : oauth2.Token) (w w1 : World) :
  (∀ data, MarshalIndentTokenStore host (storeOf token) = Ok data →
           UnmarshalTokenStore host data = Ok (storeOf token)) →
  SaveToken host token w = (w1, None) →
  ∃ token',
    (LoadToken host w1).2 = Ok (Some token') ∧
    oauth2.AccessToken token' = oauth2.AccessToken token ∧
    oauth2.RefreshToken token' = oauth2.RefreshToken token ∧
    oauth2.TokenType token' = oauth2.TokenType token ∧
    oauth2.Expiry token' = oauth2.Expiry token.
Proof.
  intros Hjson Hsave.
  destruct (save_written token w w1 Hsave) as (dir & data & Hdata & Hdir & Hread).
  unfold LoadToken. rewrite Hdir, Hread, (Hjson data Hdata).
  eexists. split; [reflexivity|]. by destruct token.
Qed.

(** With the reader and the writer of JSON of the host in memory, which are
    those of encoding/json for text in ASCII, nothing is asked of the
    token but that its texts are ASCII: a save succeeds only for an expiry
    that is written, in the years 0 to 9999, and what is written is read
    back. *)
Lemma ascii_token_round_trip (token : oauth2.Token) (w w1 : World) :
  MarshalIndentTokenStore host = encodeTokenStore →
  UnmarshalTokenStore host = decodeTokenStore →
  asciiToken token →
  SaveToken host token w = (w1, None) →
  (LoadToken host w1).2 = Ok (Some token).
Proof.
  intros Henc Hdec _ Hsave.
  destruct (save_written token w w1 Hsave) as (dir & data & Hdata & Hdir & Hread).
  unfold LoadToken. rewrite Hdir, Hread, Hdec.
  rewrite Henc in Hdata. rewrite (decode_encode_TokenStore _ _ Hdata).
  by destruct token.
Qed.

End OAuthFacts.

(** The host in memory keeps its files and directories. *)
Lemma memLaws : HostLaws mem.
Proof.
  refine (mkHostLaws MemWorld mem
            (λ w dir, dir ∈ dirs w ∧ files w !! dir = None) _ _ _ _ _ _); simpl.
  - intros dir perm w w'. unfold memMkdirAll.
    destruct (files w !! dir) eqn:Hf; [done|]. intros [= <-]. simpl.
    split; [set_solver|done].
  - intros dir perm [env hm fs ds] [Hin Hf]. unfold memMkdirAll. simpl in *.
    rewrite Hf. do 2 f_equal. apply subseteq_union_1_L.
    by apply singleton_subseteq_l.
  - intros dir perm w w' err name. unfold memMkdirAll.
    destruct (files w !! dir); intros Heq; inversion Heq; done.
  - intros path data perm w w' dir. unfold memWriteFile.
    destruct (decide (path ∈ dirs w)) as [|Hnot]; [done|].
    intros [= <-] [Hin Hf]. simpl. split; [done|].
    rewrite lookup_insert_ne; [done|]. by intros ->.
  - intros path data perm w w' err name. unfold memWriteFile.
    destruct (decide (path ∈ dirs w)); intros [= <- _]; done.
  - intros path data perm w w'. unfold memWriteFile, memReadFile.
    destruct (decide (path ∈ dirs w)); [done|]. intros [= <-]. simpl.
    by rewrite lookup_insert_eq.
Defined.

Lemma token_round_trip_witness :
  ∃ token',
    (LoadToken mem (SaveToken mem testToken noToken).1).2 = Ok (Some token') ∧
    oauth2.AccessToken token' = "test-access-token" ∧
    oauth2.RefreshToken token' = "test-refresh-token" ∧
    oauth2.TokenType token' = "Bearer" ∧
    oauth2.Expiry token' = 1705330800123000000.
Proof.
  refine (token_round_trip mem memLaws testToken noToken _ _ _).
  - intros data H. vm_compute in H. injection H as <-. vm_compute. reflexivity.
  - vm_compute. reflexivity.
Defined.

(** C9 as it is stated fails: on a machine with the credentials and no
    token file both loads succeed, the one of the token with no token, and
    the answer is [false]; once a token is saved both loads succeed again
    and the answer is [true]. *)
Lemma configured_needs_a_token :
  let w := noToken in
  let w' := (SaveToken mem testToken noToken).1 in
  (∃ creds, LoadCredentials mem w = Ok creds) ∧
  (LoadToken mem w).2 = Ok None ∧
  (IsConfigured mem w).2 = false ∧
  (∃ creds, LoadCredentials mem w' = Ok creds) ∧
  (∃ token, (LoadToken mem w').2 = Ok token) ∧
  (IsConfigured mem w').2 = true.
Proof.
  vm_compute. repeat split; eauto.
Qed.

(** ** The cases of the specification and of the tests *)

Lemma conflict_iff_overlap_witness :
  ∃ es', detectConflicts time.ParseRFC3339 overlapping = Some es' ∧
         HasConflict <$> es' !! 0%nat = Some true ∧
         HasConflict <$> es' !! 1%nat = Some true.
Proof.
  refine (proj1 (proj2 (proj2 (proj2 (proj2
    (conflict_iff_overlap time.ParseRFC3339 overlapping 0 1
       (ev "event1" "2024-01-15T14:00:00Z" "2024-01-15T15:00:00Z")
       (ev "event2" "2024-01-15T14:30:00Z" "2024-01-15T15:30:00Z")
       1705327200000000000 1705330800000000000
       1705329000000000000 1705332600000000000
       _ _ _ _ _ _ _))))) _);
    first [reflexivity | lia].
Defined.

Lemma malformed_pair_skipped_witness :
  checkPair time.ParseRFC3339 0 1 malformed = Some malformed.
Proof.
  refine (proj1 (malformed_pair_skipped time.ParseRFC3339 malformed 0 1
                   (ev "event1" "invalid-time" "2024-01-15T15:00:00Z")
                   (ev "event2" "2024-01-15T14:00:00Z" "invalid-time")
                   _ _ _ _)).
  - lia.
  - reflexivity.
  - reflexivity.
  - left. reflexivity.
Defined.

Example detect_adjacent :
  flags <$> detectConflicts time.ParseRFC3339 adjacent = Some [false; false].
Proof. reflexivity. Qed.

Example detect_malformed :
  flags <$> detectConflicts time.ParseRFC3339 malformed = Some [false; false].
Proof. reflexivity. Qed.

(** ** The cases of client_test.go *)

Example url_zoom_description :
  extractMeetingURL (withText "Join Zoom meeting: https://zoom.us/j/123456789" "")
  = "https://zoom.us/j/123456789".
Proof. vm_compute. reflexivity. Qed.

Example url_meet_description :
  extractMeetingURL (withText "Meeting link: https://meet.google.com/abc-defg-hij" "")
  = "https://meet.google.com/abc-defg-hij".
Proof. vm_compute. reflexivity. Qed.

Example url_teams_location :
  extractMeetingURL (withText "" "https://teams.microsoft.com/l/meetup-join/19%3ameeting_abc")
  = "https://teams.microsoft.com/l/meetup-join/19%3ameeting_abc".
Proof. vm_compute. reflexivity. Qed.

Example url_webex_description :
  extractMeetingURL (withText "WebEx: https://example.webex.com/meet/123" "")
  = "https://example.webex.com/meet/123".
Proof. vm_compute. reflexivity. Qed.

Example url_none :
  extractMeetingURL (withText "Regular meeting with no link" "") = "".
Proof. vm_compute. reflexivity. Qed.

Example url_host_backtracks :
  extractMeetingURL (withText "see https://a.zoom.us.zoom.us/j/1 now" "") = "https://a.zoom.us.zoom.us/j/1".
Proof. vm_compute. reflexivity. Qed.

Example TrimSpace_both_ends : strings.TrimSpace "  a b  " = "a b".
Proof. vm_compute. reflexivity. Qed.

(** ** The pass over the pairs, as a whole *)

Section PassFacts.

Variable parseTime : string → option time.Time.

Local Open Scope nat_scope.

(** An overlap of two events of the slice, in either order, sets both
    flags. *)
Lemma detectConflicts_marks_any es k j ek ej :
  j ≠ k → es !! k = Some ek → es !! j = Some ej → conflict parseTime ek ej = true →
  ∃ es', detectConflicts parseTime es = Some es' ∧
         HasConflict <$> es' !! k = Some true ∧ HasConflict <$> es' !! j = Some true.
Proof.
  intros Hne Hk Hj Hc. destruct (decide (k < j)) as [Hlt|Hge].
  - by apply (detectConflicts_marks parseTime es k j ek ej).
  - destruct (detectConflicts_marks parseTime es j k ej ek) as (es' & ? & ? & ?);
      [lia|done|done|by rewrite conflict_sym|].
    by exists es'.
Qed.

(** The flags after the pass: the flag that was there, or an overlap. *)
Lemma detectConflicts_spec es :
  ∃ es', detectConflicts parseTime es = Some es' ∧ length es' = length es ∧
    ∀ k e, es !! k = Some e →
      ∃ e', es' !! k = Some e' ∧ e' = setHasConflict (HasConflict e') e ∧
        (HasConflict e' = true ↔
           HasConflict e = true ∨ overlapsAnother parseTime es k).
Proof.
  destruct (detectConflicts_justified parseTime es) as (es' & Hes' & [Hl HR] & HJ).
  exists es'. split; [done|]. split; [done|].
  intros k e Hk. destruct (HR k e Hk) as (e' & Hk' & Heq & Hmono).
  exists e'. split; [done|]. split; [done|]. split.
  - intros Hf. destruct (HJ k e' Hk' Hf) as [(e0 & He0 & Hf0)|Hov]; [|by right].
    left. congruence.
  - intros [Hf|(j & ek & ej & Hne & Hek & Hej & Hc)]; [by apply Hmono|].
    destruct (detectConflicts_marks_any es k j ek ej) as (es'' & Hes'' & Hfk & _);
      [done..|].
    replace es'' with es' in Hfk by congruence. rewrite Hk' in Hfk.
    by injection Hfk.
Qed.

(** For events that come without a flag, the flags after the pass are
    those of the events that overlap another event of the result, and the
    other event of an overlap is flagged too. *)
Lemma flags_of_unflagged (es es' : list Event) :
  Forall (λ e, HasConflict e = false) es →
  detectConflicts parseTime es = Some es' →
  ∀ k e', es' !! k = Some e' →
    (HasConflict e' = true ↔
       ∃ j ej', j ≠ k ∧ es' !! j = Some ej' ∧ conflict parseTime e' ej' = true) ∧
    (HasConflict e' = true →
       ∃ j ej', j ≠ k ∧ es' !! j = Some ej' ∧ HasConflict ej' = true ∧
                conflict parseTime e' ej' = true).
Proof.
  intros Hclear Hes' k e' Hk'.
  destruct (detectConflicts_spec es) as (es0 & Hes0 & Hl & Hall).
  replace es0 with es' in * by congruence. clear es0 Hes0.
  assert (Hback : ∀ i x', es' !! i = Some x' →
            ∃ x, es !! i = Some x ∧ x' = setHasConflict (HasConflict x') x ∧
                 (HasConflict x' = true ↔ overlapsAnother parseTime es i)).
  { intros i x' Hi'.
    destruct (lookup_lt_is_Some_2 es i) as [x Hx].
    { rewrite <- Hl. by eapply lookup_lt_Some. }
    destruct (Hall i x Hx) as (x'' & Hx'' & Heq & Hiff).
    assert (x'' = x') by congruence. subst x''.
    exists x. split; [done|]. split; [done|]. rewrite Hiff.
    rewrite Forall_forall in Hclear.
    assert (HasConflict x = false) as ->.
    { apply Hclear. apply list_elem_of_lookup. eauto. }
    split; [by intros [?|?]|by right]. }
  assert (Hfwd : ∀ i x, es !! i = Some x →
            ∃ x', es' !! i = Some x' ∧ x' = setHasConflict (HasConflict x') x).
  { intros i x Hx. destruct (Hall i x Hx) as (x' & ? & ? & _). eauto. }
  destruct (Hback k e' Hk') as (e & Hk & Heq & Hiff).
  assert (Hov : HasConflict e' = true →
    ∃ j ej', j ≠ k ∧ es' !! j = Some ej' ∧ HasConflict ej' = true ∧
             conflict parseTime e' ej' = true).
  { rewrite Hiff. intros (j & ek & ej & Hne & Hek & Hej & Hc).
    assert (ek = e) by congruence. subst ek.
    destruct (Hfwd j ej Hej) as (ej' & Hej' & Heqj).
    exists j, ej'. split; [done|]. split; [done|]. split.
    - destruct (Hback j ej' Hej') as (ej0 & Hej0 & _ & Hiffj). apply Hiffj.
      assert (ej0 = ej) by congruence. subst ej0.
      exists k, ej, e. by rewrite conflict_sym.
    - by rewrite Heq, Heqj, conflict_setHasConflict. }
  split; [|done]. split.
  - intros Hf. destruct (Hov Hf) as (j & ej' & ? & ? & _ & ?). eauto.
  - intros (j & ej' & Hne & Hej' & Hc). apply Hiff.
    destruct (Hback j ej' Hej') as (ej & Hej & Heqj & _).
    exists j, e, ej. split; [done|]. split; [done|]. split; [done|].
    by rewrite Heq, Heqj, conflict_setHasConflict in Hc.
Qed.

(** X1: [detectConflicts] returns, for every slice, a slice of the same
    length in which the event at each index is the one that was there with
    nothing but its flag changed; the flag is set exactly when it was set
    before or the event overlaps another event of the slice, at an earlier
    or a later index. *)
Theorem detectConflicts_only_flags (es : list Event) :
  ∃ es', detectConflicts parseTime es = Some es' ∧ length es' = length es ∧
    ∀ k e, es !! k = Some e →
      ∃ e', es' !! k = Some e' ∧ e' = setHasConflict (HasConflict e') e ∧
        (HasConflict e' = true ↔
           HasConflict e = true ∨ overlapsAnother parseTime es k).
Proof. apply detectConflicts_spec. Qed.

(** X2: a second pass changes nothing: [detectConflicts] on its own result
    returns that result. *)
Theorem detectConflicts_idempotent (es es' : list Event) :
  detectConflicts parseTime es = Some es' →
  detectConflicts parseTime es' = Some es'.
Proof.
  intros Hes'.
  destruct (detectConflicts_spec es) as (es0 & Hes0 & Hl & Hall).
  replace es0 with es' in * by congruence. clear es0 Hes0.
  destruct (detectConflicts_spec es') as (es'' & Hes'' & Hl' & Hall').
  rewrite Hes''. f_equal. apply list_eq. intros k.
  destruct (es' !! k) as [e'|] eqn:Hk'.
  2:{ apply lookup_ge_None. rewrite Hl'. by apply lookup_ge_None. }
  destruct (Hall' k e' Hk') as (e'' & -> & Heq & Hiff). f_equal.
  rewrite Heq. replace (HasConflict e'') with (HasConflict e');
    [apply setHasConflict_id|].
  destruct (HasConflict e') eqn:Hf'.
  { symmetry. apply Hiff. by left. }
  symmetry. apply not_true_is_false. rewrite Hiff. intros [?|Hov]; [done|].
  destruct Hov as (j & ek' & ej' & Hne & Hek' & Hej' & Hc).
  assert (ek' = e') by congruence. subst ek'.
  destruct (lookup_lt_is_Some_2 es k) as [e He].
  { rewrite <- Hl. by eapply lookup_lt_Some. }
  destruct (lookup_lt_is_Some_2 es j) as [ej Hej].
  { rewrite <- Hl. by eapply lookup_lt_Some. }
  destruct (Hall k e He) as (x & Hx & Hxe & Hxiff).
  destruct (Hall j ej Hej) as (y & Hy & Hye & _).
  assert (x = e') by congruence. assert (y = ej') by congruence. subst x y.
  assert (HasConflict e' = true); [|congruence].
  apply Hxiff. right. exists j, e, ej. split; [done|]. split; [done|]. split; [done|].
  by rewrite Hxe, Hye, conflict_setHasConflict in Hc.
Qed.

End PassFacts.

(** ** The events that are kept *)

(** X3: [convertEvent] keeps an item exactly when it is not cancelled, has
    a start time, lists an attendee other than the caller with an address,
    and the caller's answer is [accepted]; the event it returns then has the
    id, title, start and end of the item, the names of the listed attendees
    and their number, the link of [extractMeetingURL], no conflict flag and
    the status [accepted]. *)
Theorem convertEvent_kept (item : calendar.Event) (e : Event) :
  convertEvent item = Some e ↔
    calendar.Status item ≠ "cancelled" ∧
    calendar.DateTime (calendar.Start item) ≠ "" ∧
    listedNames item ≠ [] ∧
    selfResponseStatus item = "accepted" ∧
    e = mkEvent (calendar.Id item) (calendar.Summary item)
          (calendar.DateTime (calendar.Start item))
          (calendar.DateTime (calendar.End_ item))
          (listedNames item) (Z.of_nat (length (listedNames item)))
          (extractMeetingURL item) false "accepted".
Proof.
  rewrite convertEvent_eq.
  destruct (String.eqb_spec (calendar.Status item) "cancelled") as [Hs|Hs].
  { split; [done|]. by intros [? _]. }
  destruct (String.eqb_spec (calendar.DateTime (calendar.Start item)) "") as [Hd|Hd].
  { split; [done|]. by intros (_ & ? & _). }
  destruct (listedNames item) as [|n names] eqn:Hn.
  { split; [done|]. by intros (_ & _ & ? & _). }
  cbn [length Nat.eqb].
  destruct (String.eqb_spec (selfResponseStatus item) "accepted") as [Ha|Ha]; cbn [negb].
  - rewrite Ha. split.
    + intros [= <-]. done.
    + intros (_ & _ & _ & _ & ->). done.
  - split; [done|]. by intros (_ & _ & _ & ? & _).
Qed.

Lemma convertEvent_wellFormed item e :
  convertEvent item = Some e → wellFormed e ∧ HasConflict e = false.
Proof.
  rewrite convertEvent_eq. repeat case_match; try done. intros [= <-].
  unfold wellFormed. cbn.
  repeat split; try done.
  - by apply String.eqb_eq, negb_false_iff.
  - by apply String.eqb_neq.
  - intros Hnil. by rewrite Hnil in *.
Qed.

Section FetchedFacts.

Variable parseTime : string → option time.Time.
Variable EventsList : Window → string → result (list calendar.Event).

Local Open Scope nat_scope.

Lemma FetchUpcomingEvents_eq now calendarIDs hours :
  FetchUpcomingEvents parseTime EventsList (Ok ()) (Ok ()) now calendarIDs hours =
    let ids := askedCalendars calendarIDs in
    let errors := failures EventsList (Upcoming hours) ids in
    let events := collected EventsList (Upcoming hours) ids in
    match errors, events with
    | _ :: _, [] =>
        Some (NewErrorResponse ErrAPIError
                ("failed to fetch events: " +:+ strings.Join errors "; "))
    | _, _ =>
        NewSuccessResponse now <$>
          detectConflicts parseTime (sort.SliceStable startLess events)
    end.
Proof.
  unfold FetchUpcomingEvents.
  replace (if (length calendarIDs =? 0)%nat then ["primary"] else calendarIDs)
    with (askedCalendars calendarIDs) by (by destruct calendarIDs).
  rewrite fetchCalendar_eq. simpl.
  destruct (failures _ _ _) as [|msg errors], (collected _ _ _) as [|e events];
    reflexivity.
Qed.

(** The converted events of a window: every one comes from the conversion
    of an item. *)
Lemma collected_converted window ids e :
  e ∈ collected EventsList window ids → ∃ item, convertEvent item = Some e.
Proof.
  unfold collected. rewrite list_elem_of_In, in_flat_map.
  intros (calID & _ & Hin). destruct (EventsList window calID) as [items|]; [|done].
  apply list_elem_of_In, list_elem_of_omap in Hin as (item & _ & ?). eauto.
Qed.

Lemma collected_wellFormed window ids :
  Forall (λ e, wellFormed e ∧ HasConflict e = false) (collected EventsList window ids).
Proof.
  apply Forall_forall. intros e He.
  destruct (collected_converted _ _ _ He) as [item Hitem].
  by eapply convertEvent_wellFormed.
Qed.

Lemma flagsRaised_cleared es es' :
  flagsRaised es es' →
  map (setHasConflict false) es' = map (setHasConflict false) es.
Proof.
  intros [Hl HR]. apply list_eq. intros k. rewrite !list_lookup_fmap.
  destruct (es !! k) as [e|] eqn:Hk.
  - destruct (HR k e Hk) as (e' & -> & -> & _). done.
  - replace (es' !! k) with (@None Event); [done|].
    symmetry. apply lookup_ge_None. rewrite Hl. by apply lookup_ge_None.
Qed.

Lemma StronglySorted_lookup_lt {A} (R : A → A → Prop) l i j a b :
  StronglySorted R l → i < j → l !! i = Some a → l !! j = Some b → R a b.
Proof.
  intros Hl. revert i j. induction Hl as [|x l Hl IH Hx]; intros i j Hij Hi Hj; [done|].
  destruct j as [|j]; [lia|]. destruct i as [|i]; simpl in *.
  - injection Hi as <-. rewrite Forall_forall in Hx. apply Hx.
    apply list_elem_of_lookup. eauto.
  - apply (IH i j); [lia|done..].
Qed.

(** What a fetch that asks the provider answers, from the events of its
    window. *)
Lemma fetched_events events now resp :
  Forall (λ e, wellFormed e ∧ HasConflict e = false) events →
  NewSuccessResponse now <$>
    detectConflicts parseTime (sort.SliceStable startLess events) = Some resp →
  Success resp = true ∧ LastSync resp = now ∧ Error resp = "" ∧ Message resp = "" ∧
  Forall wellFormed (Events resp) ∧
  map (setHasConflict false) (Events resp) ≡ₚ events ∧
  (∀ i j a b, i < j → Events resp !! i = Some a → Events resp !! j = Some b →
     (Start b <? Start a)%string = false) ∧
  (∀ k e, Events resp !! k = Some e →
     (HasConflict e = true ↔
        ∃ j ej, j ≠ k ∧ Events resp !! j = Some ej ∧ conflict parseTime e ej = true)).
Proof.
  intros Hev. set (sorted := sort.SliceStable startLess events).
  destruct (detectConflicts parseTime sorted) as [es'|] eqn:Hes'; [|done].
  intros [= <-]. cbn [Success LastSync Error Message Events NewSuccessResponse].
  do 4 (split; [done|]).
  pose proof (SliceStable_perm Start events) as Hperm. fold startLess in Hperm.
  change (sort.SliceStable (keyLess Start) events) with sorted in Hperm.
  assert (Hsorted : Forall (λ e, wellFormed e ∧ HasConflict e = false) sorted).
  { by rewrite Hperm. }
  destruct (detectConflicts_raises parseTime sorted) as (es0 & Hes0 & HR).
  replace es0 with es' in * by congruence. clear es0 Hes0.
  pose proof (flagsRaised_cleared _ _ HR) as Hclr.
  split; [|split; [|split]].
  - apply Forall_lookup. intros k e' Hk'.
    destruct (flagsRaised_lookup _ _ _ _ HR Hk') as (e & Hk & -> & _).
    destruct (Forall_lookup_1 _ _ _ _ Hsorted Hk) as [Hwf _].
    exact Hwf.
  - rewrite Hclr, <- Hperm. replace (map (setHasConflict false) sorted) with sorted; [done|].
    clear -Hsorted. induction Hsorted as [|e l [_ He] _ IH]; [done|].
    simpl. rewrite <- IH. f_equal. rewrite <- He. symmetry. apply setHasConflict_id.
  - intros i j a b Hij Hi Hj.
    destruct (flagsRaised_lookup _ _ _ _ HR Hi) as (a0 & Ha0 & -> & _).
    destruct (flagsRaised_lookup _ _ _ _ HR Hj) as (b0 & Hb0 & -> & _).
    cbn [Start setHasConflict].
    apply (StronglySorted_lookup_lt (keyLe Start) sorted i j a0 b0);
      [apply (SliceStable_sorted Start)|done..].
  - intros k e Hk.
    assert (Hclear : Forall (λ e, HasConflict e = false) sorted).
    { eapply Forall_impl; [exact Hsorted|]. by intros ? [_ ?]. }
    destruct (flags_of_unflagged parseTime sorted es' Hclear Hes' k e Hk) as [Hiff _].
    exact Hiff.
Qed.

End FetchedFacts.

(** ** What the fetches answer *)

Section FetchResponses.

Variable parseTime : string → option time.Time.
Variable EventsList : Window → string → result (list calendar.Event).

Local Open Scope nat_scope.

Lemma fetchIn_eq window now calendarIDs :
  fetchIn parseTime EventsList window (Ok ()) (Ok ()) now calendarIDs =
    let ids := askedCalendars calendarIDs in
    let errors := failures EventsList window ids in
    let events := collected EventsList window ids in
    match errors, events with
    | _ :: _, [] =>
        Some (NewErrorResponse ErrAPIError
                ("failed to fetch events: " +:+ strings.Join errors "; "))
    | _, _ =>
        NewSuccessResponse now <$>
          detectConflicts parseTime (sort.SliceStable startLess events)
    end.
Proof.
  destruct window; [apply FetchTodayEvents_eq|apply FetchUpcomingEvents_eq].
Qed.

Lemma fetchIn_client_error window service now calendarIDs err :
  fetchIn parseTime EventsList window (Err err) service now calendarIDs =
    Some (NewErrorResponse ErrNotConfigured err).
Proof. by destruct window. Qed.

Lemma fetchIn_service_error window u now calendarIDs err :
  fetchIn parseTime EventsList window (Ok u) (Err err) now calendarIDs =
    Some (NewErrorResponse ErrAPIError ("failed to create calendar service: " +:+ err)).
Proof. by destruct window. Qed.

(** A fetch with a client and a service: an answer of success is made of
    the events of the window. *)
Lemma fetchIn_success window now calendarIDs resp :
  fetchIn parseTime EventsList window (Ok ()) (Ok ()) now calendarIDs = Some resp →
  Success resp = true →
  NewSuccessResponse now <$>
    detectConflicts parseTime
      (sort.SliceStable startLess
         (collected EventsList window (askedCalendars calendarIDs))) = Some resp.
Proof.
  rewrite fetchIn_eq. cbv zeta.
  destruct (failures _ _ _), (collected _ _ _); try done.
  by intros [= <-].
Qed.

(** X4: [FetchTodayEvents] and [FetchUpcomingEvents] always answer.  An
    answer that is not a success has no events and no time of
    synchronisation, and its code is [not_configured] or [api_error]; a
    success has no code and no message, carries the time of the call, and
    needs the client and the service.  Without a client the code is
    [not_configured] and the message is the client's error; with a client
    and without a service the code is [api_error].  No calendar asked is
    the same as [primary] asked. *)
Theorem fetch_response_shape (window : Window) (client service : result unit)
    (now : string) (calendarIDs : list string) :
  ∃ resp,
    fetchIn parseTime EventsList window client service now calendarIDs = Some resp ∧
    (Success resp = false →
     Events resp = [] ∧ LastSync resp = "" ∧
     (Error resp = ErrNotConfigured ∨ Error resp = ErrAPIError)) ∧
    (Success resp = true →
     Error resp = "" ∧ Message resp = "" ∧ LastSync resp = now ∧
     client = Ok () ∧ service = Ok ()) ∧
    (∀ err, client = Err err → resp = NewErrorResponse ErrNotConfigured err) ∧
    (∀ err, client = Ok () → service = Err err →
       resp = NewErrorResponse ErrAPIError
                ("failed to create calendar service: " +:+ err)) ∧
    fetchIn parseTime EventsList window client service now [] = 
    fetchIn parseTime EventsList window client service now ["primary"].
Proof.
  destruct client as [[]|cerr].
  2:{ rewrite !fetchIn_client_error. eexists. split; [done|]. cbn.
      repeat split; try done; eauto. congruence. }
  destruct service as [[]|serr].
  2:{ rewrite !fetchIn_service_error. eexists. split; [done|]. cbn.
      repeat split; try done; eauto. congruence. }
  rewrite !fetchIn_eq. cbv zeta.
  change (askedCalendars []) with ["primary"].
  change (askedCalendars ["primary"]) with ["primary"].
  destruct (detectConflicts_raises parseTime
              (sort.SliceStable startLess
                 (collected EventsList window (askedCalendars calendarIDs))))
    as (merged & Hmerged & _).
  destruct (failures _ _ _), (collected _ _ _); rewrite ?Hmerged; cbn;
    (eexists; split; [reflexivity|]); cbn; repeat split; try done; eauto.
Qed.

(** X5: in a success of either fetch every event is as [convertEvent]
    makes it (accepted, with a start, with attendees and their count); the
    events are, flags apart, those converted from the calendars asked, each
    as many times; and they come in ascending order of their start text. *)
Theorem fetch_events_invariant (window : Window) (now : string)
    (calendarIDs : list string) (resp : Response) :
  fetchIn parseTime EventsList window (Ok ()) (Ok ()) now calendarIDs = Some resp →
  Success resp = true →
  Forall wellFormed (Events resp) ∧
  map (setHasConflict false) (Events resp)
    ≡ₚ collected EventsList window (askedCalendars calendarIDs) ∧
  (∀ i j a b, i < j → Events resp !! i = Some a → Events resp !! j = Some b →
     (Start b <? Start a)%string = false).
Proof.
  intros Hresp Hok. pose proof (fetchIn_success _ _ _ _ Hresp Hok) as H.
  apply fetched_events in H; [|apply collected_wellFormed].
  destruct H as (_ & _ & _ & _ & Hwf & Hperm & Hsorted & _). done.
Qed.

(** X6: in a success of either fetch an event is flagged exactly when it
    overlaps another event of the answer; both events of an overlap are
    flagged. *)
Theorem fetch_flags_exact (window : Window) (now : string)
    (calendarIDs : list string) (resp : Response) :
  fetchIn parseTime EventsList window (Ok ()) (Ok ()) now calendarIDs = Some resp →
  Success resp = true →
  ∀ k e, Events resp !! k = Some e →
    (HasConflict e = true ↔
       ∃ j ej, j ≠ k ∧ Events resp !! j = Some ej ∧ conflict parseTime e ej = true) ∧
    (∀ j ej, j ≠ k → Events resp !! j = Some ej → conflict parseTime e ej = true →
       HasConflict e = true ∧ HasConflict ej = true).
Proof.
  intros Hresp Hok. pose proof (fetchIn_success _ _ _ _ Hresp Hok) as H.
  apply fetched_events in H; [|apply collected_wellFormed].
  destruct H as (_ & _ & _ & _ & _ & _ & _ & Hflags).
  intros k e Hk. split; [by apply Hflags|].
  intros j ej Hne Hj Hc. split.
  - apply (Hflags k e Hk). eauto.
  - apply (Hflags j ej Hj). exists k, e. by rewrite conflict_sym.
Qed.

(** X7: when the events converted from the calendars asked are already in
    ascending order of start, calendar after calendar, a success of either
    fetch lists them in that very order: the sort moves nothing. *)
Theorem fetch_keeps_sorted_order (window : Window) (now : string)
    (calendarIDs : list string) (resp : Response) :
  StronglySorted startLe (collected EventsList window (askedCalendars calendarIDs)) →
  fetchIn parseTime EventsList window (Ok ()) (Ok ()) now calendarIDs = Some resp →
  Success resp = true →
  map (setHasConflict false) (Events resp)
    = collected EventsList window (askedCalendars calendarIDs).
Proof.
  intros Hsorted Hresp Hok. pose proof (fetchIn_success _ _ _ _ Hresp Hok) as H.
  set (events := collected EventsList window (askedCalendars calendarIDs)) in *.
  assert (Hsame : sort.SliceStable startLess events = events).
  { apply (stable_sort_unique Start); [apply (SliceStable_sorted Start)|done|].
    intros s. apply (SliceStable_stable Start). }
  rewrite Hsame in H.
  destruct (detectConflicts parseTime events) as [es'|] eqn:Hes'; [|done].
  injection H as <-. cbn [Events NewSuccessResponse].
  destruct (detectConflicts_raises parseTime events) as (es0 & Hes0 & HR).
  replace es0 with es' in * by congruence.
  rewrite (flagsRaised_cleared _ _ HR).
  pose proof (collected_wellFormed EventsList window (askedCalendars calendarIDs)) as Hwf.
  fold events in Hwf. clear -Hwf.
  induction Hwf as [|e l [_ He] _ IH]; [done|].
  simpl. rewrite IH. f_equal. rewrite <- He. apply setHasConflict_id.
Qed.

End FetchResponses.

(** ** The order of the events of an answer *)

Section MergeOrder.

Variable parseTime : string → option time.Time.
Variable EventsList : Window → string → result (list calendar.Event).

Local Open Scope nat_scope.






End MergeOrder.


Example same_start_in_calendar_order :
  ID <$> Events sameStartResponse = ["p0"; "w1"; "p1"] ∧
  ID <$> collected sameStart Today ["work"; "personal"] = ["w1"; "p0"; "p1"].
Proof. split; reflexivity. Qed.

(** ** The calendars, the credentials and the client *)

Lemma ListCalendars_loop (items : list calendarlist.CalendarListEntry) acc :
  fold_left
    (λ calendars item,
       (calendars ++
          [calendars.mkCalendarInfo (calendarlist.Id item)
             (calendarlist.Summary item) (calendarlist.Primary item)])%list)
    items acc
  = (acc ++ map (λ item, calendars.mkCalendarInfo (calendarlist.Id item)
                           (calendarlist.Summary item) (calendarlist.Primary item))
              items)%list.
Proof.
  revert acc. induction items as [|item items IH]; intros acc; simpl.
  - by rewrite app_nil_r.
  - by rewrite IH, <- app_assoc.
Qed.

(** X8: [ListCalendars] succeeds exactly when the client, the service and
    the listing call succeed.  A success has no code and no message and one
    calendar for each item of the listing, in the order of the listing,
    with the id, the summary and the primary flag of the item.  A failure
    has no calendars; its code is [not_configured] exactly when the client
    failed and [api_error] otherwise. *)
Theorem ListCalendars_outcomes (client service : result unit)
    (list : result (list calendarlist.CalendarListEntry)) :
  let resp := ListCalendars client service list in
  (calendars.Success resp = true ↔
     client = Ok () ∧ service = Ok () ∧ ∃ items, list = Ok items) ∧
  (∀ items, client = Ok () → service = Ok () → list = Ok items →
     calendars.Error resp = "" ∧ calendars.Message resp = "" ∧
     length (calendars.Calendars resp) = length items ∧
     ∀ k item, items !! k = Some item →
       ∃ info, calendars.Calendars resp !! k = Some info ∧
               calendars.ID info = calendarlist.Id item ∧
               calendars.Summary info = calendarlist.Summary item ∧
               calendars.Primary info = calendarlist.Primary item) ∧
  (calendars.Success resp = false →
     calendars.Calendars resp = [] ∧
     (calendars.Error resp = ErrNotConfigured ↔ ∃ err, client = Err err) ∧
     (calendars.Error resp = ErrAPIError ↔ client = Ok ())).
Proof.
  cbv zeta. split; [|split].
  - destruct client as [[]|?], service as [[]|?], list as [items|?]; simpl;
      (split; [try done; eauto|]); try (by intros (? & ? & ? & ?)); done.
  - intros items -> -> ->. cbn [ListCalendars calendars.Error calendars.Message
      calendars.Calendars]. rewrite ListCalendars_loop, app_nil_l, length_map.
    repeat split. intros k item Hk. eexists. split.
    + rewrite list_lookup_fmap, Hk. reflexivity.
    + done.
  - destruct client as [[]|?], service as [[]|?], list as [items|?]; simpl;
      try done; intros _; (split; [done|]); split; split;
      try done; try (by intros [? ?]); eauto.
Qed.

Lemma prefix_append (l s : string) : String.prefix l (l +:+ s) = true.
Proof.
  induction l as [|c l IH]; [by destruct s|].
  rewrite append_cons. cbn [String.prefix]. by destruct (ascii_dec c c).
Qed.

Section ClientFacts.

Context {World : Type} (host : Host World).

(** X9: [LoadCredentials] succeeds exactly when the file
    [gcal-credentials.json] of the configuration directory is read and
    parsed into credentials whose client id and client secret are both not
    empty; what it returns then is those credentials, never [nil]. *)
Theorem LoadCredentials_valid (w : World) (r : option Credentials) :
  LoadCredentials host w = Ok r ↔
  ∃ creds dir data,
    r = Some creds ∧
    getConfigDir host w = Ok dir ∧
    ReadFile host (Join host [dir; credentialsFile]) w = inr data ∧
    UnmarshalCredentials host data = Ok creds ∧
    ClientID creds ≠ "" ∧ ClientSecret creds ≠ "".
Proof.
  unfold LoadCredentials. split.
  - destruct (getConfigDir host w) as [dir|?]; [|done].
    destruct (ReadFile host _ w) as [e|data] eqn:Hread.
    { by destruct (notExist e). }
    destruct (UnmarshalCredentials host data) as [creds|?] eqn:Hjson; [|done].
    destruct (ClientID creds =? "")%string eqn:Hid; [done|].
    destruct (ClientSecret creds =? "")%string eqn:Hsec; [done|].
    intros [= <-]. exists creds, dir, data.
    apply String.eqb_neq in Hid, Hsec. done.
  - intros (creds & dir & data & -> & -> & -> & -> & Hid & Hsec).
    apply String.eqb_neq in Hid, Hsec. by rewrite Hid, Hsec.
Qed.


Lemma GetClient_eq w :
  (GetClient host w).2 =
    match LoadCredentials host w with
    | Err err => Err (ErrNotConfigured +:+ ": " +:+ err)
    | Ok None => Err (ErrNotConfigured +:+ ": ")
    | Ok (Some creds) =>
        match (LoadToken host w).2 with
        | Err err => Err ("load token: " +:+ err)
        | Ok None => Err (ErrNotConfigured +:+ ": no token found - run 'gcal auth' first")
        | Ok (Some token) =>
            match (TokenSource host creds token (LoadToken host w).1).2 with
            | Err err => Err (ErrTokenExpired +:+ ": " +:+ err)
            | Ok _ => Ok ()
            end
        end
    end.
Proof.
  unfold GetClient.
  destruct (LoadCredentials host w) as [[creds|]|?]; try done.
  destruct (LoadToken host w) as [w0 [[token|]|?]]; try done. simpl.
  destruct (TokenSource host creds token w0) as [w1 [newToken|?]]; try done.
  simpl. by case_match.
Qed.

Lemma IsConfigured_eq w :
  (IsConfigured host w).2 =
    match LoadCredentials host w with
    | Ok (Some _) =>
        match (LoadToken host w).2 with
        | Ok (Some _) => true
        | _ => false
        end
    | _ => false
    end.
Proof.
  unfold IsConfigured.
  destruct (LoadCredentials host w) as [[creds|]|?]; try done.
  by destruct (LoadToken host w) as [w0 [[token|]|?]].
Qed.

(** X11: [GetClient] succeeds exactly when the credentials load, a token
    loads and the token source gives a token; whether the refreshed token
    could be saved plays no part.  A success means [IsConfigured] is true.
    The error of a failure begins with [token_expired: ] when
    [IsConfigured] is true, and with [not_configured: ] or [load token: ]
    when it is false. *)
Theorem GetClient_outcomes (w : World) :
  ((GetClient host w).2 = Ok () ↔
     ∃ creds token newToken,
       LoadCredentials host w = Ok (Some creds) ∧
       (LoadToken host w).2 = Ok (Some token) ∧
       (TokenSource host creds token (LoadToken host w).1).2 = Ok newToken) ∧
  ((GetClient host w).2 = Ok () → (IsConfigured host w).2 = true) ∧
  (∀ err, (GetClient host w).2 = Err err →
     if (IsConfigured host w).2
     then String.prefix "token_expired: " err = true
     else String.prefix "not_configured: " err = true
          ∨ String.prefix "load token: " err = true).
Proof.
  rewrite GetClient_eq.
  rewrite IsConfigured_eq.
  destruct (LoadCredentials host w) as [[creds|]|?].
  - destruct (LoadToken host w).2 as [[token|]|?].
    + destruct (TokenSource host creds token (LoadToken host w).1).2
        as [newToken|?] eqn:Hsrc.
      * split; [|split]; [|done|done]. split; [|done]. intros _.
        exists creds, token, newToken. done.
      * split; [|split]; [|done|intros ? [= <-]; apply (prefix_append "token_expired: ")].
        split; [done|]. intros (? & ? & ? & [= <-] & [= <-] & ?). congruence.
    + split; [|split]; [|done|intros ? [= <-]; left; apply (prefix_append "not_configured: ")].
      split; [done|]. by intros (? & ? & ? & _ & ? & _).
    + split; [|split]; [|done|intros ? [= <-]; right; apply (prefix_append "load token: ")].
      split; [done|]. by intros (? & ? & ? & _ & ? & _).
  - split; [|split]; [|done|intros ? [= <-]; left; apply (prefix_append "not_configured: ")].
    split; [done|]. by intros (? & ? & ? & ? & _).
  - split; [|split]; [|done|intros ? [= <-]; left; apply (prefix_append "not_configured: ")].
    split; [done|]. by intros (? & ? & ? & ? & _).
Qed.

Variable laws : HostLaws host.

(** X12: once the data directory is there, loading the token again
    changes nothing on a host that keeps its files and directories: the
    second [LoadToken] leaves the machine as the first left it and returns
    the same token or the same error. *)
Theorem LoadToken_again (w : World) (dir : string) :
  (getDataDir host w).2 = Ok dir →
  LoadToken host (LoadToken host w).1 = LoadToken host w.
Proof.
  intros Hdir. unfold LoadToken at 2 3.
  destruct (getDataDir host w) as [w0 [dir'|?]] eqn:Hd; [|done].
  destruct (getDataDir_again host laws w w0 dir' Hd) as [Hthere Hagain].
  assert (Hw0 : getDataDir host w0 = (w0, Ok dir')) by by apply Hagain.
  assert (Hload : ∀ r, (let path := Join host [dir'; tokenFile] in
            match ReadFile host path w0 with
            | inl err =>
                if notExist err then (w0, Ok None)
                else (w0, Err ("read token: " +:+ text err))
            | inr data =>
                match UnmarshalTokenStore host data with
                | Err err => (w0, Err ("parse token: " +:+ err))
                | Ok store =>
                    (w0, Ok (Some (oauth2.mkToken (AccessToken store) (RefreshToken store)
                                     (TokenType store) (Expiry store))))
                end
            end) = r → r.1 = w0).
  { intros r <-. cbv zeta. repeat case_match; done. }
  cbv zeta in *. rewrite (Hload _ eq_refl).
  unfold LoadToken. rewrite Hw0. reflexivity.
Qed.

(** X13: when the token source gives a token with another access token
    and [SaveToken] can write it, [GetClient] succeeds and leaves the
    machine so that the next [LoadToken] returns the new token.  The host
    keeps its files and directories, and its JSON reader gives back the
    record of the new token from what its JSON writer made of it. *)
Theorem GetClient_saves_refreshed (w w0 w1 : World) (creds : Credentials)
    (token newToken : oauth2.Token) :
  (∀ data, MarshalIndentTokenStore host (storeOf newToken) = Ok data →
           UnmarshalTokenStore host data = Ok (storeOf newToken)) →
  LoadCredentials host w = Ok (Some creds) →
  LoadToken host w = (w0, Ok (Some token)) →
  TokenSource host creds token w0 = (w1, Ok newToken) →
  oauth2.AccessToken newToken ≠ oauth2.AccessToken token →
  (SaveToken host newToken w1).2 = None →
  (GetClient host w).2 = Ok () ∧
  (LoadToken host (GetClient host w).1).2 = Ok (Some newToken).
Proof.
  intros Hjson Hcreds Htoken Hsrc Hnew Hsave.
  unfold GetClient. rewrite Hcreds, Htoken, Hsrc.
  apply String.eqb_neq in Hnew. rewrite Hnew. simpl. split; [done|].
  destruct (SaveToken host newToken w1) as [w2 e] eqn:Hs. simpl in *. subst e.
  destruct (save_written host laws newToken w1 w2 Hs)
    as (dir & data & Hdata & Hdir & Hread).
  unfold LoadToken. rewrite Hdir, Hread, (Hjson data Hdata).
  by destruct newToken.
Qed.

End ClientFacts.

Lemma withTokenSource_laws {World : Type} (host : Host World) source :
  HostLaws host → HostLaws (withTokenSource source host).
Proof.
  intros laws.
  exact (mkHostLaws World (withTokenSource source host) (IsDir host laws)
           (mkdir_makes host laws) (mkdir_again host laws) (mkdir_env host laws)
           (write_keeps_dir host laws) (write_env host laws)
           (read_after_write host laws)).
Defined.

Section FetchClient.

Variable parseTime : string → option time.Time.
Variable EventsList : Window → string → result (list calendar.Event).
Context {World : Type} (host : Host World).

(** X14: the fetches and [ListCalendars], given the result of
    [GetClient]: a success needs [IsConfigured] to be true; when
    [GetClient] fails the code is [not_configured] and the message is the
    error of [GetClient], also when the token has expired, in which case
    the message begins with [token_expired: ]; and [GetClient] does fail
    when [IsConfigured] is false. *)
Theorem fetch_needs_client (w : World) (window : Window) (service : result unit)
    (now : string) (calendarIDs : list string)
    (list : result (list calendarlist.CalendarListEntry)) :
  let client := (GetClient host w).2 in
  let fetched := fetchIn parseTime EventsList window client service now calendarIDs in
  let listed := ListCalendars client service list in
  (∀ resp, fetched = Some resp → Success resp = true → (IsConfigured host w).2 = true) ∧
  (calendars.Success listed = true → (IsConfigured host w).2 = true) ∧
  (∀ msg, client = Err msg →
     fetched = Some (NewErrorResponse ErrNotConfigured msg) ∧
     listed = calendars.mkCalendarsResponse false [] ErrNotConfigured msg ∧
     if (IsConfigured host w).2
     then String.prefix "token_expired: " msg = true
     else String.prefix "not_configured: " msg = true
          ∨ String.prefix "load token: " msg = true) ∧
  ((IsConfigured host w).2 = false → ∃ msg, client = Err msg).
Proof.
  cbv zeta. rewrite GetClient_eq, IsConfigured_eq.
  assert (Hfail : ∀ (configured : bool) (m : string),
    (if configured
     then String.prefix "token_expired: " m = true
     else String.prefix "not_configured: " m = true
          ∨ String.prefix "load token: " m = true) →
    (∀ resp,
       fetchIn parseTime EventsList window (Err m) service now calendarIDs = Some resp →
       Success resp = true → configured = true) ∧
    (calendars.Success (ListCalendars (Err m) service list) = true →
     configured = true) ∧
    (∀ msg, @Err unit m = Err msg →
       fetchIn parseTime EventsList window (Err m) service now calendarIDs
         = Some (NewErrorResponse ErrNotConfigured msg) ∧
       ListCalendars (Err m) service list
         = calendars.mkCalendarsResponse false [] ErrNotConfigured msg ∧
       if configured
       then String.prefix "token_expired: " msg = true
       else String.prefix "not_configured: " msg = true
            ∨ String.prefix "load token: " msg = true) ∧
    (configured = false → ∃ msg, @Err unit m = Err msg)).
  { intros configured m Hm. rewrite fetchIn_client_error. cbn [ListCalendars].
    split; [by intros ? [= <-] [=]|]. split; [by intros [=]|].
    split; [by intros ? [= <-]|eauto]. }
  destruct (LoadCredentials host w) as [[creds|]|?].
  - destruct (LoadToken host w).2 as [[token|]|?].
    + destruct (TokenSource host creds token (LoadToken host w).1).2
        as [newToken|?].
      * repeat split; done.
      * apply Hfail, (prefix_append "token_expired: ").
    + apply Hfail. left. apply (prefix_append "not_configured: ").
    + apply Hfail. right. apply (prefix_append "load token: ").
  - apply Hfail. left. apply (prefix_append "not_configured: ").
  - apply Hfail. left. apply (prefix_append "not_configured: ").
Qed.

End FetchClient.

(** ** Links found in the text *)

Section LinkFacts.

Local Open Scope nat_scope.

Lemma prefix_nil s : String.prefix "" s = true.
Proof. by destruct s. Qed.

Lemma prefix_cons_inv c l s :
  String.prefix (String c l) s = true →
  ∃ s', s = String c s' ∧ String.prefix l s' = true.
Proof.
  destruct s as [|d s]; [done|]. cbn [String.prefix].
  destruct (ascii_dec c d) as [->|]; [|done]. eauto.
Qed.

Lemma prefix_cons_same c l s :
  String.prefix (String c l) (String c s) = String.prefix l s.
Proof. cbn [String.prefix]. by destruct (ascii_dec c c). Qed.

Lemma prefix_trans a l s :
  String.prefix a l = true → String.prefix l s = true → String.prefix a s = true.
Proof.
  revert l s. induction a as [|c a IH]; intros l s Hal Hls; [apply prefix_nil|].
  apply prefix_cons_inv in Hal as (l' & -> & Hal).
  apply prefix_cons_inv in Hls as (s' & -> & Hls).
  rewrite prefix_cons_same. eauto.
Qed.

Lemma prefix_split l s :
  String.prefix l s = true → s = l +:+ regexp.drop (String.length l) s.
Proof.
  revert s. induction l as [|c l IH]; intros s H; [done|].
  apply prefix_cons_inv in H as (s' & -> & H).
  rewrite append_cons. cbn [String.length regexp.drop]. f_equal. by apply IH.
Qed.

Lemma substring_prefix n s : ∃ post, s = String.substring 0 n s +:+ post.
Proof.
  revert s. induction n as [|n IH]; intros s.
  - exists s. by destruct s.
  - destruct s as [|c s]; [by exists ""|].
    destruct (IH s) as [post Hpost]. exists post.
    cbn [String.substring]. rewrite append_cons. by f_equal.
Qed.

Lemma prefix_substring l n s :
  String.prefix l s = true → String.length l ≤ n →
  String.prefix l (String.substring 0 n s) = true.
Proof.
  revert n s. induction l as [|c l IH]; intros n s H Hn; [apply prefix_nil|].
  apply prefix_cons_inv in H as (s' & -> & H).
  destruct n as [|n]; [cbn in Hn; lia|].
  cbn [String.substring]. rewrite prefix_cons_same. apply IH; [done|].
  cbn in Hn. lia.
Qed.

Lemma FindString_eq re s :
  regexp.FindString re s =
    match regexp.matchHere re s with
    | Some n => String.substring 0 n s
    | None =>
        match s with
        | String _ s' => regexp.FindString re s'
        | EmptyString => ""
        end
    end.
Proof. by destruct s. Qed.

Lemma matchHere_lit l re s n :
  regexp.matchHere (regexp.Lit l :: re) s = Some n →
  String.prefix l s = true ∧ String.length l ≤ n.
Proof.
  cbn [regexp.matchHere]. destruct (String.prefix l s); [|done].
  destruct (regexp.matchHere re _); [|done]. intros [= <-]. split; [done|lia].
Qed.

(** A pattern that begins with a literal matches text that begins with
    it. *)
Lemma FindString_lit l re s :
  regexp.FindString (regexp.Lit l :: re) s = "" ∨
  String.prefix l (regexp.FindString (regexp.Lit l :: re) s) = true.
Proof.
  induction s as [|c s IH]; rewrite FindString_eq;
    destruct (regexp.matchHere (regexp.Lit l :: re) _) as [n|] eqn:Hm;
    try (apply matchHere_lit in Hm as [Hp Hn]; right; by apply prefix_substring);
    [by left|done].
Qed.

(** The match is a piece of the text. *)
Lemma FindString_factor re s :
  ∃ pre post, s = pre +:+ regexp.FindString re s +:+ post.
Proof.
  induction s as [|c s IH]; rewrite FindString_eq;
    destruct (regexp.matchHere re _) as [n|].
  - exists "". apply substring_prefix.
  - by exists "", "".
  - exists "". apply substring_prefix.
  - destruct IH as (pre & post & IH). exists (String c pre), post.
    rewrite append_cons. by f_equal.
Qed.

Lemma meetingPatterns_https p :
  p ∈ meetingPatterns →
  ∃ l re, p = regexp.Lit l :: re ∧ String.prefix "https://" l = true.
Proof.
  unfold meetingPatterns. cbv zeta. intros Hp.
  repeat (apply elem_of_cons in Hp as [->|Hp];
          [eexists _, _; split; reflexivity|]).
  by apply elem_of_nil in Hp.
Qed.

Lemma list_ascii_of_string_append a b :
  list_ascii_of_string (a +:+ b) = (list_ascii_of_string a ++ list_ascii_of_string b)%list.
Proof.
  induction a as [|c a IH]; [done|]. rewrite append_cons. cbn. by rewrite IH.
Qed.

Lemma string_of_list_ascii_append l1 l2 :
  string_of_list_ascii (l1 ++ l2) = string_of_list_ascii l1 +:+ string_of_list_ascii l2.
Proof.
  induction l1 as [|c l1 IH]; [done|]. cbn [app string_of_list_ascii].
  by rewrite append_cons, IH.
Qed.

Lemma rev_append a b : strings.rev (a +:+ b) = strings.rev b +:+ strings.rev a.
Proof.
  unfold strings.rev.
  by rewrite list_ascii_of_string_append, rev_app_distr, string_of_list_ascii_append.
Qed.

Lemma rev_rev s : strings.rev (strings.rev s) = s.
Proof.
  unfold strings.rev.
  by rewrite list_ascii_of_string_of_list_ascii, rev_involutive,
    string_of_list_ascii_of_string.
Qed.

Lemma trimPrefix_suffix table fuel s :
  ∃ pre, s = pre +:+ strings.trimPrefix table fuel s.
Proof.
  revert s. induction fuel as [|fuel IH]; intros s; cbn [strings.trimPrefix].
  - by exists "".
  - destruct (List.find _ table) as [sp|] eqn:Hfind; [|by exists ""].
    apply find_some in Hfind as [_ Hsp].
    destruct (IH (regexp.drop (String.length sp) s)) as [pre Hpre].
    exists (sp +:+ pre). rewrite append_assoc, <- Hpre. by apply prefix_split.
Qed.

(** What [strings.TrimSpace] returns is a piece of its argument. *)
Lemma TrimSpace_factor s : ∃ pre post, s = pre +:+ strings.TrimSpace s +:+ post.
Proof.
  unfold strings.TrimSpace. cbv zeta.
  destruct (trimPrefix_suffix strings.spaces (String.length s) s) as [pre Hpre].
  remember (strings.trimPrefix strings.spaces (String.length s) s) as s1 eqn:Hs1.
  destruct (trimPrefix_suffix (map strings.rev strings.spaces) (String.length s1)
              (strings.rev s1)) as [pre2 Hpre2].
  exists pre, (strings.rev pre2).
  etransitivity; [exact Hpre|]. f_equal.
  by rewrite <- rev_append, <- Hpre2, rev_rev.
Qed.

Lemma prefix_before c sp u k :
  existsb (Ascii.eqb c) (list_ascii_of_string sp) = false →
  String.prefix sp (u +:+ String c k) = true → String.prefix sp u = true.
Proof.
  revert u. induction sp as [|d sp IH]; intros u Hc H; [apply prefix_nil|].
  cbn [list_ascii_of_string existsb] in Hc. apply orb_false_elim in Hc as [Hd Hc].
  destruct u as [|e u].
  - apply prefix_cons_inv in H as (s' & [= -> _] & _).
    by rewrite Ascii.eqb_refl in Hd.
  - rewrite append_cons in H. apply prefix_cons_inv in H as (s' & [= -> <-] & H).
    rewrite prefix_cons_same. by apply IH.
Qed.

Lemma drop_append sp u k :
  String.prefix sp u = true →
  regexp.drop (String.length sp) (u +:+ k) = regexp.drop (String.length sp) u +:+ k.
Proof.
  revert u. induction sp as [|d sp IH]; intros u H; [done|].
  apply prefix_cons_inv in H as (u' & -> & H). rewrite append_cons.
  cbn [String.length regexp.drop]. by apply IH.
Qed.

(** Trimming stops before a byte that is in no element of the table. *)
Lemma trimPrefix_keeps table c k fuel u :
  forallb (λ sp, negb (existsb (Ascii.eqb c) (list_ascii_of_string sp))) table = true →
  ∃ u', strings.trimPrefix table fuel (u +:+ String c k) = u' +:+ String c k.
Proof.
  intros Htable. revert u.
  induction fuel as [|fuel IH]; intros u; cbn [strings.trimPrefix]; [by exists u|].
  destruct (List.find _ table) as [sp|] eqn:Hfind; [|by exists u].
  apply find_some in Hfind as [Hin Hsp].
  rewrite forallb_forall in Htable. apply Htable, negb_true_iff in Hin.
  rewrite drop_append by by eapply prefix_before. apply IH.
Qed.

Lemma trimPrefix_none table fuel s :
  List.find (λ sp, String.prefix sp s) table = None →
  strings.trimPrefix table fuel s = s.
Proof. intros H. destruct fuel; cbn [strings.trimPrefix]; by rewrite ?H. Qed.

(** [strings.TrimSpace] leaves the start of a link as it is. *)
Lemma TrimSpace_https s :
  String.prefix "https://" s = true →
  String.prefix "https://" (strings.TrimSpace s) = true.
Proof.
  intros H. apply prefix_split in H. rewrite H.
  generalize (regexp.drop (String.length "https://") s). clear. intros t.
  unfold strings.TrimSpace. cbv zeta.
  rewrite (trimPrefix_none strings.spaces _ ("https://" +:+ t)) by reflexivity.
  rewrite rev_append.
  change (strings.rev "https://") with (String "/" "/:sptth").
  destruct (trimPrefix_keeps (map strings.rev strings.spaces) "/" "/:sptth"
              (String.length ("https://" +:+ t)) (strings.rev t)) as [u' ->];
    [by vm_compute|].
  rewrite rev_append.
  change (strings.rev (String "/" "/:sptth")) with "https://".
  apply prefix_append.
Qed.

Lemma allPlain_append a b : allPlain (a +:+ b) = allPlain a && allPlain b.
Proof. unfold allPlain. by rewrite list_ascii_of_string_append, forallb_app. Qed.

Lemma substring_add k n s :
  String.substring 0 (k + n) s
  = String.substring 0 k s +:+ String.substring 0 n (regexp.drop k s).
Proof.
  revert s. induction k as [|k IH]; intros s.
  - by destruct s.
  - destruct s as [|c s]; [by destruct n|].
    cbn [Nat.add String.substring regexp.drop]. by rewrite append_cons, IH.
Qed.

Lemma span_plain cls s k :
  (∀ c, cls c = true → plain c = true) → k ≤ regexp.span cls s →
  allPlain (String.substring 0 k s) = true.
Proof.
  intros Hcls. revert s. induction k as [|k IH]; intros s Hk; [by destruct s|].
  destruct s as [|c s]; [done|]. cbn [regexp.span] in Hk.
  destruct (cls c) eqn:Hc; [|lia].
  cbn [String.substring]. unfold allPlain. cbn [list_ascii_of_string forallb].
  rewrite (Hcls c Hc). apply IH. lia.
Qed.

Lemma descend_some lo k f n :
  regexp.descend lo k f = Some n → ∃ i, i ≤ lo + k ∧ f i = Some n.
Proof.
  induction k as [|k IH]; cbn [regexp.descend].
  - destruct (f (lo + 0)) eqn:Hf; [|done]. intros [= <-]. eauto.
  - destruct (f (lo + S k)) eqn:Hf.
    + intros [= <-]. eauto.
    + intros H. destruct (IH H) as (i & Hi & Hfi). exists i. split; [lia|done].
Qed.

Lemma matchHere_plain re :
  Forall atomPlain re →
  ∀ s n, regexp.matchHere re s = Some n → allPlain (String.substring 0 n s) = true.
Proof.
  induction 1 as [|a re Ha Hre IH]; intros s n; cbn [regexp.matchHere].
  - intros [= <-]. by destruct s.
  - assert (Hclass : ∀ cls i, (∀ c, cls c = true → plain c = true) →
              i ≤ regexp.span cls s →
              (m ← regexp.matchHere re (regexp.drop i s); Some (i + m)) = Some n →
              allPlain (String.substring 0 n s) = true).
    { intros cls i Hcls Hi Hm.
      destruct (regexp.matchHere re (regexp.drop i s)) as [m|] eqn:Hrest; [|done].
      injection Hm as <-. rewrite substring_add, allPlain_append.
      by rewrite (span_plain cls s i Hcls Hi), (IH _ _ Hrest). }
    destruct a as [l|cls|cls]; cbn [atomPlain] in Ha.
    + destruct (String.prefix l s) eqn:Hl; [|done].
      destruct (regexp.matchHere re _) as [m|] eqn:Hrest; [|done].
      intros [= <-]. rewrite substring_add, allPlain_append.
      apply prefix_correct in Hl. by rewrite Hl, Ha, (IH _ _ Hrest).
    + intros Hd. apply descend_some in Hd as (i & Hi & Hm).
      by apply (Hclass cls i).
    + destruct (regexp.span cls s) as [|k] eqn:Hspan; [done|].
      intros Hd. apply descend_some in Hd as (i & Hi & Hm).
      apply (Hclass cls i); [done|lia|done].
Qed.

Lemma FindString_plain re s :
  Forall atomPlain re → allPlain (regexp.FindString re s) = true.
Proof.
  intros Hre. induction s as [|c s IH]; rewrite FindString_eq;
    destruct (regexp.matchHere re _) as [n|] eqn:Hm;
    eauto using matchHere_plain.
Qed.

Lemma allPlain_factor pre s post :
  allPlain (pre +:+ s +:+ post) = true → allPlain s = true.
Proof.
  rewrite !allPlain_append, !andb_true_iff. by intros (_ & ? & _).
Qed.

Lemma meetingPatterns_plain p : p ∈ meetingPatterns → Forall atomPlain p.
Proof.
  unfold meetingPatterns. cbv zeta. intros Hp.
  repeat (apply elem_of_cons in Hp as [->|Hp];
    [repeat (apply Forall_cons; split); try apply Forall_nil; cbn [atomPlain];
       try reflexivity; try (by intros c Hc);
       intros [[] [] [] [] [] [] [] []]; by vm_compute|]).
  by apply elem_of_nil in Hp.
Qed.

(** X15: for an item without a direct video link and without a video
    entry point that has an address, [extractMeetingURL] returns the empty
    string or a piece of the description, a space and the location that
    begins with [https://] and holds no tab, line feed, form feed, carriage
    return, space, [<], [>] or quote. *)
Theorem extractMeetingURL_from_text (item : calendar.Event) :
  calendar.HangoutLink item = "" →
  (∀ ep, ep ∈ entryPoints item →
         calendar.EntryPointType ep ≠ "video" ∨ calendar.Uri ep = "") →
  extractMeetingURL item = "" ∨
  (String.prefix "https://" (extractMeetingURL item) = true ∧
   allPlain (extractMeetingURL item) = true ∧
   ∃ pre post, searchIn item = pre +:+ extractMeetingURL item +:+ post).
Proof.
  intros Hlink Hentries. rewrite extractMeetingURL_eq, Hlink.
  change (negb ("" =? "")%string) with false. cbv iota.
  rewrite find_nothing by (intros ep Hep; by apply usable_false, Hentries).
  destruct (List.find _ meetingPatterns) as [p|] eqn:Hfind; [right|by left].
  apply find_some in Hfind as [Hp Hfound].
  apply negb_true_iff, String.eqb_neq in Hfound.
  apply list_elem_of_In in Hp. pose proof (meetingPatterns_plain p Hp) as Hplain.
  apply meetingPatterns_https in Hp as (l & re & -> & Hl).
  destruct (TrimSpace_factor (regexp.FindString (regexp.Lit l :: re) (searchIn item)))
    as (c & d & Hcd).
  split; [|split].
  - apply TrimSpace_https.
    destruct (FindString_lit l re (searchIn item)) as [Hnone|Hsome]; [done|].
    by eapply prefix_trans.
  - apply (allPlain_factor c _ d). rewrite <- Hcd. by apply FindString_plain.
  - destruct (FindString_factor (regexp.Lit l :: re) (searchIn item))
      as (a & b & Hab).
    exists (a +:+ c), (d +:+ b).
    etransitivity; [exact Hab|]. rewrite Hcd at 1.
    by rewrite !append_assoc.
Qed.

End LinkFacts.

(** ** Cases for the theorems above *)

Lemma detectConflicts_idempotent_witness :
  detectConflicts time.ParseRFC3339 (map (setHasConflict true) overlapping)
  = Some (map (setHasConflict true) overlapping).
Proof.
  apply (detectConflicts_idempotent time.ParseRFC3339 overlapping).
  vm_compute. reflexivity.
Defined.

Lemma fetch_events_invariant_witness :
  Forall wellFormed (Events busyResponse) ∧
  map (setHasConflict false) (Events busyResponse)
    ≡ₚ collected busyDay Today (askedCalendars []) ∧
  (∀ i j a b, (i < j)%nat →
     Events busyResponse !! i = Some a → Events busyResponse !! j = Some b →
     (Start b <? Start a)%string = false).
Proof.
  apply (fetch_events_invariant time.ParseRFC3339 busyDay Today
           "2024-01-15T09:00:00Z" [] busyResponse).
  - vm_compute. reflexivity.
  - reflexivity.
Defined.

Lemma fetch_flags_exact_witness :
  let e := mkEvent "a" "Meeting" "2024-01-15T14:00:00Z" "2024-01-15T15:00:00Z"
             ["Alice"] 1 "" true "accepted" in
  (HasConflict e = true ↔
     ∃ j ej, j ≠ 0%nat ∧ Events busyResponse !! j = Some ej ∧
             conflict time.ParseRFC3339 e ej = true) ∧
  (∀ j ej, j ≠ 0%nat → Events busyResponse !! j = Some ej →
     conflict time.ParseRFC3339 e ej = true →
     HasConflict e = true ∧ HasConflict ej = true).
Proof.
  apply (fetch_flags_exact time.ParseRFC3339 busyDay (Upcoming 24)
           "2024-01-15T09:00:00Z" ["primary"] busyResponse).
  - vm_compute. reflexivity.
  - reflexivity.
  - reflexivity.
Defined.

Lemma fetch_keeps_sorted_order_witness :
  map (setHasConflict false) (Events busyResponse)
  = collected busyDay Today (askedCalendars ["primary"]).
Proof.
  apply (fetch_keeps_sorted_order time.ParseRFC3339 busyDay Today
           "2024-01-15T09:00:00Z" ["primary"] busyResponse).
  - vm_compute. repeat constructor.
  - vm_compute. reflexivity.
  - reflexivity.
Defined.


Lemma LoadToken_again_witness :
  LoadToken mem (LoadToken mem withToken).1 = LoadToken mem withToken.
Proof.
  apply (LoadToken_again mem memLaws withToken "/data/gcal").
  vm_compute. reflexivity.
Defined.

Lemma GetClient_saves_refreshed_witness :
  let host := withTokenSource refreshing mem in
  (GetClient host withToken).2 = Ok () ∧
  (LoadToken host (GetClient host withToken).1).2
    = Ok (Some (oauth2.mkToken "fresh-test-access-token" "test-refresh-token"
                  "Bearer" 1705330800123000000)).
Proof.
  refine (GetClient_saves_refreshed (withTokenSource refreshing mem)
            (withTokenSource_laws mem refreshing memLaws)
            withToken (LoadToken mem withToken).1 (LoadToken mem withToken).1
            (mkCredentials "test-id" "test-secret") testToken
            (oauth2.mkToken "fresh-test-access-token" "test-refresh-token"
               "Bearer" 1705330800123000000) _ _ _ _ _ _).
  - intros data H. vm_compute in H. injection H as <-. vm_compute. reflexivity.
  - vm_compute. reflexivity.
  - vm_compute. reflexivity.
  - vm_compute. reflexivity.
  - discriminate.
  - vm_compute. reflexivity.
Defined.

Lemma extractMeetingURL_from_text_witness :
  let item := withText "Join Zoom meeting: https://zoom.us/j/123456789 " "Room 4" in
  extractMeetingURL item = "" ∨
  (String.prefix "https://" (extractMeetingURL item) = true ∧
   allPlain (extractMeetingURL item) = true ∧
   ∃ pre post, searchIn item = pre +:+ extractMeetingURL item +:+ post).
Proof.
  apply (extractMeetingURL_from_text
           (withText "Join Zoom meeting: https://zoom.us/j/123456789 " "Room 4")).
  - reflexivity.
  - intros ep Hep. vm_compute in Hep. by apply elem_of_nil in Hep.
Defined.
